(** * AIGM: the rules-answer pipeline and the push-to-talk voice session

    A shallow embedding of
    - [api/rules/answer.js]: [scoreChunk], [retrieveChunks] and the request
      [handler];
    - the rules client ([askRulebook]);
    - the session screen: the speech-recognition callbacks ([onstart],
      [onend], [onerror], [onresult]) and the press/release handlers.

    JavaScript strings are modelled as lists of 8-bit characters, read as the
    Latin-1 range of UTF-16 code units. *)

From Stdlib Require Import Ascii String DecimalString.
From Stdlib Require Import List Arith PeanoNat Lia Bool Sorted.
Import ListNotations.
Local Open Scope list_scope.

Set Implicit Arguments.
Local Set Warnings "-register-all".

(** ** JavaScript string primitives used by the sources *)

Module Js.

Definition str := list ascii.

Definition lit (s : string) : str := list_ascii_of_string s.

Definition code (c : ascii) : nat := nat_of_ascii c.

(** The regular-expression class [\s], which is also the set that
    [String.prototype.trim] strips: TAB, LF, VT, FF, CR, SPACE and NBSP are
    its members below U+0100. *)
Definition isWhiteSpace (c : ascii) : bool :=
  let n := code c in
  ((9 <=? n) && (n <=? 13)) || (n =? 32) || (n =? 160).

(** The class [[.!?]]. *)
Definition isSentenceEnd (c : ascii) : bool :=
  match c with
  | "."%char | "!"%char | "?"%char => true
  | _ => false
  end.

(** [toLowerCase], one code unit at a time: A-Z and the Latin-1 capitals
    (U+00C0..U+00DE without the multiplication sign) move up by 32. *)
Definition toLowerChar (c : ascii) : ascii :=
  let n := code c in
  if ((65 <=? n) && (n <=? 90))
     || ((192 <=? n) && (n <=? 222) && negb (n =? 215))
  then ascii_of_nat (n + 32) else c.

Definition toLowerCase (s : str) : str := map toLowerChar s.

(** [s.split(/[C]+/)] for a character class [C]: the scan keeps the piece
    collected since the last separator run in [cur]; [inSep] tells that the
    previous character belonged to a separator run, which the greedy [+] has
    already consumed.  The piece after the last separator is always emitted,
    also when it is empty, so the empty string splits into one empty piece. *)
Fixpoint split_from (sep : ascii -> bool) (inSep : bool) (cur s : str)
  : list str :=
  match s with
  | [] => [cur]
  | c :: r =>
      if sep c then
        if inSep then split_from sep true [] r
        else cur :: split_from sep true [] r
      else split_from sep false (cur ++ [c]) r
  end.

Definition split (sep : ascii -> bool) (s : str) : list str :=
  split_from sep false [] s.

Fixpoint trimStart (s : str) : str :=
  match s with
  | [] => []
  | c :: r => if isWhiteSpace c then trimStart r else s
  end.

Definition trim (s : str) : str := rev (trimStart (rev (trimStart s))).

Fixpoint startsWith (s t : str) : bool :=
  match t, s with
  | [], _ => true
  | _ :: _, [] => false
  | c :: t', d :: s' => Ascii.eqb c d && startsWith s' t'
  end.

(** [s.includes(t)]: [t] occurs in [s] at some offset. *)
Fixpoint includes (s t : str) : bool :=
  startsWith s t ||
  match s with
  | [] => false
  | _ :: r => includes r t
  end.

(** [l.join(sep)] *)
Fixpoint join (sep : str) (l : list str) : str :=
  match l with
  | [] => []
  | x :: r =>
      match r with
      | [] => x
      | _ :: _ => x ++ sep ++ join sep r
      end
  end.

Fixpoint eqb_str (a b : str) : bool :=
  match a, b with
  | [], [] => true
  | c :: a', d :: b' => Ascii.eqb c d && eqb_str a' b'
  | _, _ => false
  end.

(** A string is truthy when it is not empty. *)
Definition nonEmpty (s : str) : bool := 0 <? length s.

Definition nl : str := [ascii_of_nat 10].

(** Template-literal rendering of a non-negative integer. *)
Definition ofNat (n : nat) : str :=
  lit (NilEmpty.string_of_uint (Nat.to_uint n)).

End Js.

Import Js.

(** ** The retrieval pipeline of [api/rules/answer.js] *)

Module Retrieval.

Record Chunk := mkChunk
  { id : str; gameId : str; page : nat; section : str; text : str }.

Record ScoredChunk := mkScored { chunk : Chunk; score : nat }.

(** The test of the inner [filter]:
    [cWord.includes(qWord) || qWord.includes(cWord)]. *)
Definition wordMatch (qWord cWord : str) : bool :=
  includes cWord qWord || includes qWord cWord.

(** [scoreChunk]: the two [forEach] loops thread the mutable [score]. *)
Definition scoreChunk (question : str) (c : Chunk) : nat :=
  let questionWords := split isWhiteSpace (toLowerCase question) in
  let chunkWords := split isWhiteSpace (toLowerCase (text c)) in
  let score0 := 0 in
  let score1 :=
    fold_left
      (fun score qWord =>
         if 2 <? length qWord then
           let matches := filter (wordMatch qWord) chunkWords in
           score + length matches
         else score)
      questionWords score0 in
  let sectionLower := toLowerCase (section c) in
  fold_left
    (fun score qWord =>
       if includes sectionLower qWord then score + 2 else score)
    questionWords score1.

(** The comparator [(a, b) => b.score - a.score] puts [a] first when its
    score is the larger one.  [Array.prototype.sort] is stable, which fixes
    its result; insertion from the right is one stable sort. *)
Fixpoint insert_desc (x : ScoredChunk) (l : list ScoredChunk)
  : list ScoredChunk :=
  match l with
  | [] => [x]
  | y :: r => if score y <=? score x then x :: y :: r
              else y :: insert_desc x r
  end.

Definition sort_desc (l : list ScoredChunk) : list ScoredChunk :=
  fold_right insert_desc [] l.

Definition retrieveChunks (question : str) (chunks : list Chunk) (topN : nat)
  : list Chunk :=
  let scored := map (fun c => mkScored c (scoreChunk question c)) chunks in
  map chunk
    (firstn topN
       (sort_desc (filter (fun item => 0 <? score item) scored))).

(** The order the comparator asks for. *)
Definition byScore (a b : ScoredChunk) : Prop := score b <= score a.

(** The scored items that survive the filter, sorted: what
    [retrieveChunks] slices. *)
Definition ranked (question : str) (chunks : list Chunk)
  : list ScoredChunk :=
  sort_desc
    (filter (fun item => 0 <? score item)
       (map (fun c => mkScored c (scoreChunk question c)) chunks)).

End Retrieval.

Import Retrieval.

(** ** The scorer in the words of the specification *)

Module ScoreSpec.

(** The whitespace-separated tokens of a string: its maximal runs of
    characters that are not white space, built from the right.  A character
    joins the token that starts right after it, or starts a token of its
    own. *)
Definition startsToken (s : str) : bool :=
  match s with
  | c :: _ => negb (isWhiteSpace c)
  | [] => false
  end.

Fixpoint tokens (s : str) : list str :=
  match s with
  | [] => []
  | c :: r =>
      if isWhiteSpace c then tokens r
      else if startsToken r then
        match tokens r with
        | w :: ws => (c :: w) :: ws
        | [] => [[c]]
        end
      else [c] :: tokens r
  end.

Definition startsBlank (s : str) : bool :=
  match s with
  | c :: _ => isWhiteSpace c
  | [] => false
  end.

(** The string is empty or its last character is white space. *)
Fixpoint endsBlank (s : str) : bool :=
  match s with
  | [] => true
  | c :: r =>
      match r with
      | [] => isWhiteSpace c
      | _ :: _ => endsBlank r
      end
  end.

(** The tokens, with an empty piece in front when the string begins with
    white space and an empty piece behind when it ends with white space or
    is empty. *)
Definition pieces (s : str) : list str :=
  (if startsBlank s then [[]] else [])
  ++ tokens s
  ++ (if endsBlank s then [[]] else []).

(** [t] occurs in [s]: at some offset, the next [length t] characters of
    [s] are [t]. *)
Definition occurs (s t : str) : bool :=
  existsb (fun i => eqb_str (firstn (length t) (skipn i s)) t)
    (seq 0 (S (length s))).

Definition oneContainsTheOther (q c : str) : bool :=
  occurs c q || occurs q c.

(** The score over a way to cut a string: the sum, over the parts of the
    lowercased question that are longer than two characters, of the number
    of parts of the lowercased chunk text of which one contains the other,
    plus 2 for each part of the question that occurs in the lowercased
    section label. *)
Definition scoreOver (cut : str -> list str) (question : str) (c : Chunk)
  : nat :=
  list_sum
    (map (fun q =>
            length
              (filter (oneContainsTheOther q) (cut (toLowerCase (text c)))))
       (filter (fun q => 2 <? length q) (cut (toLowerCase question))))
  + 2 * length (filter (occurs (toLowerCase (section c)))
                  (cut (toLowerCase question))).

End ScoreSpec.

(** ** The request handler of [api/rules/answer.js] *)

Module Endpoint.

(** A field of the request body as the handler observes it: absent, a string,
    or some other JSON value, of which the handler only sees the truthiness
    and the template-literal rendering. *)
Inductive Field :=
| Missing
| Other (truthyValue : bool) (shown : str)
| Text (s : str).

Definition truthy (f : Field) : bool :=
  match f with
  | Missing => false
  | Other t _ => t
  | Text s => nonEmpty s
  end.

Definition isString (f : Field) : bool :=
  match f with Text _ => true | _ => false end.

Definition render (f : Field) : str :=
  match f with
  | Missing => lit "undefined"
  | Other _ shown => shown
  | Text s => s
  end.

(** [chunk.gameId === gameId]: a chunk's [gameId] is a string, and a string
    is strictly equal to equal strings only. *)
Definition strictEq (chunkGameId : str) (f : Field) : bool :=
  match f with
  | Text s => eqb_str chunkGameId s
  | _ => false
  end.

Record Body := mkBody { b_gameId : Field; b_question : Field }.

(** [req.body] is [None] when the platform parsed no body. *)
Record Request := mkRequest { method : str; body : option Body }.

(** Parsed JSON.  Numbers keep their literal: the handler never looks at
    one.  An object lists its members in source order; on a repeated key
    [JSON.parse] keeps the last member. *)
Inductive Json :=
| JNull
| JBool (b : bool)
| JNum (literal : str)
| JStr (s : str)
| JArr (items : list Json)
| JObj (members : list (str * Json)).

Fixpoint lookup (key : str) (members : list (str * Json)) : option Json :=
  match members with
  | [] => None
  | (k, v) :: r =>
      match lookup key r with
      | Some v' => Some v'
      | None => if eqb_str k key then Some v else None
      end
  end.

(** [v.key] for a named property of a value that is neither [null] nor
    [undefined]; only objects carry the names read here. *)
Definition prop (key : str) (v : Json) : option Json :=
  match v with
  | JObj members => lookup key members
  | _ => None
  end.

(** [v[0]] on such a value. *)
Definition index0 (v : Json) : option Json :=
  match v with
  | JArr items => hd_error items
  | JStr (c :: _) => Some (JStr [c])
  | JObj members => lookup (lit "0") members
  | _ => None
  end.

(** A step may throw. *)
Inductive Outcome (A : Type) :=
| Return (a : A)
| Throw.
Arguments Throw {A}.

(** [v?.step]: [undefined] (here [None]) and [null] short-circuit. *)
Definition optional (step : Json -> option Json) (v : option Json)
  : option Json :=
  match v with
  | None | Some JNull => None
  | Some j => step j
  end.

(** [openaiResponse.choices?.[0]?.message?.content?.trim()].  The first
    access is not optional and throws on [null]; [trim] exists on strings
    only, and calling what is not a function throws. *)
Definition completionText (openaiResponse : Json) : Outcome (option str) :=
  match openaiResponse with
  | JNull => Throw
  | _ =>
      let choices := prop (lit "choices") openaiResponse in
      let first := optional index0 choices in
      let message := optional (prop (lit "message")) first in
      let content := optional (prop (lit "content")) message in
      match content with
      | None | Some JNull => Return None
      | Some (JStr s) => Return (Some (trim s))
      | Some _ => Throw
      end
  end.

Record ModelRequest := mkModelRequest
  { authorization : str; systemPrompt : str; userPrompt : str;
    max_tokens : nat }.

(** What the model service does with a request: [fetch] rejects, or a
    response arrives with a status and a body that [json()] parses or
    rejects ([None]). *)
Inductive ModelOutcome :=
| FetchRejected
| Responded (status : nat) (payload : option Json).

(** [Response.ok] *)
Definition ok (status : nat) : bool := (200 <=? status) && (status <=? 299).

Record Env := mkEnv
  { chunkFile : option (list Chunk);
    OPENAI_API_KEY : option str;
    modelService : ModelRequest -> ModelOutcome }.

Record Source := mkSource { s_page : nat; s_section : str }.

Record Response := mkResponse
  { status : nat; answer : str; sources : list Source }.

Definition methodNotAllowed := lit "Method not allowed".
Definition questionRequired := lit "Question is required".
Definition gameIdRequired := lit "Game ID is required".
Definition troubleLoading :=
  lit "I had trouble loading the rulebook. Please try again.".
Definition noRulebook (gameId : Field) : str :=
  lit "No rulebook found for game: " ++ render gameId.
Definition notFound :=
  lit "I couldn't find relevant information in the rulebook excerpts for that question. Please check the physical rulebook or try rephrasing your question.".
Definition unavailable :=
  lit "The rules engine is currently unavailable. Please check your connection or try again later.".
Definition troubleReaching :=
  lit "I had trouble reaching the rules engine. Please check your connection or try again.".
Definition couldNotGenerate :=
  lit "I couldn't generate an answer. Please try again.".
Definition troubleProcessing :=
  lit "I had trouble processing your question. Please try again.".

Definition theSystemPrompt :=
  lit "You are a board game rules expert for Catan. You may only answer from the rulebook excerpts provided in the context. If the answer is not clearly in the context, say you are not sure and suggest checking the physical rulebook. Keep your answer under 3 short sentences. Do not invent new rules.".

Definition excerpt (c : Chunk) : str :=
  lit "[Page " ++ ofNat (page c) ++ lit ", Section: " ++ section c
  ++ lit "]" ++ nl ++ text c.

Definition buildContext (relevantChunks : list Chunk) : str :=
  join (nl ++ nl ++ lit "---" ++ nl ++ nl) (map excerpt relevantChunks).

Definition buildRequest (apiKey question : str) (relevantChunks : list Chunk)
  : ModelRequest :=
  mkModelRequest (lit "Bearer " ++ apiKey) theSystemPrompt
    (lit "Question: " ++ question ++ nl ++ nl
     ++ lit "Context from rulebook:" ++ nl ++ buildContext relevantChunks)
    150.

(** [allChunks.filter(chunk => chunk.gameId === gameId)] *)
Definition chunksFor (gameId : Field) (allChunks : list Chunk) : list Chunk :=
  filter (fun c => strictEq (Retrieval.gameId c) gameId) allChunks.

(** [handler]: the response sent, and the requests made to the model
    service on the way. *)
Definition handler (env : Env) (req : Request)
  : Response * list ModelRequest :=
  if negb (eqb_str (method req) (lit "POST")) then
    (mkResponse 405 methodNotAllowed [], [])
  else
    match body req with
    | None => (mkResponse 500 troubleProcessing [], [])
    | Some b =>
        let gameId := b_gameId b in
        let question := b_question b in
        if negb (truthy question) || negb (isString question) then
          (mkResponse 400 questionRequired [], [])
        else if negb (truthy gameId) then
          (mkResponse 400 gameIdRequired [], [])
        else
          match chunkFile env with
          | None => (mkResponse 500 troubleLoading [], [])
          | Some allChunks =>
              let chunks := chunksFor gameId allChunks in
              if length chunks =? 0 then
                (mkResponse 404 (noRulebook gameId) [], [])
              else
                let relevantChunks :=
                  retrieveChunks (render question) chunks 5 in
                if length relevantChunks =? 0 then
                  (mkResponse 200 notFound [], [])
                else
                  match OPENAI_API_KEY env with
                  | None | Some [] => (mkResponse 200 unavailable [], [])
                  | Some apiKey =>
                      let call :=
                        buildRequest apiKey (render question)
                          relevantChunks in
                      let failed :=
                        (mkResponse 200 troubleReaching [], [call]) in
                      match modelService env call with
                      | FetchRejected => failed
                      | Responded st payload =>
                          if negb (ok st) then failed
                          else
                            match payload with
                            | None => failed
                            | Some openaiResponse =>
                                match completionText openaiResponse with
                                | Throw =>
                                    (mkResponse 500 troubleProcessing [],
                                     [call])
                                | Return content =>
                                    let answer :=
                                      match content with
                                      | Some (c :: t) => c :: t
                                      | _ => couldNotGenerate
                                      end in
                                    let sources :=
                                      map (fun c =>
                                             mkSource (page c) (section c))
                                        relevantChunks in
                                    (mkResponse 200 answer sources, [call])
                                end
                            end
                      end
                  end
          end
    end.

End Endpoint.

Import Endpoint.

(** ** The rules client and the answer text of the session screen *)

Module Client.

(** What becomes of the POST of [askRulebook]: [fetch] rejects; the reply of
    the endpoint comes back; or something on the way replies in its place,
    with a status and a body that is not JSON. *)
Inductive Transport :=
| Unreachable
| Delivered
| Garbled (status : nat).

Record Reply := mkReply { r_answer : str; r_sources : list Source }.

Definition couldNotReach :=
  lit "I couldn't reach the rules engine. Please try again.".
Definition couldNotReachNetwork :=
  lit "I couldn't reach the rules engine. Please check your connection and try again.".

(** [askRulebook(question, { gameId })] against an endpoint running
    [handler] in [env].  The promise of [res.json()] is returned without
    being awaited, so its rejection leaves the [try] and rejects the
    call. *)
Definition askRulebook (env : Env) (net : Transport) (question gameId : str)
  : Outcome Reply :=
  match net with
  | Unreachable => Return (mkReply couldNotReachNetwork [])
  | Delivered =>
      let res :=
        fst (handler env
               (mkRequest (lit "POST")
                  (Some (mkBody (Text gameId) (Text question))))) in
      if negb (ok (status res)) then Return (mkReply couldNotReach [])
      else Return (mkReply (answer res) (sources res))
  | Garbled st =>
      if negb (ok st) then Return (mkReply couldNotReach []) else Throw
  end.

Definition noMatchingRule :=
  lit "I couldn't find a matching rule in the rulebook excerpts.".

(** The sentences the safety net keeps:
    [answer.split(/[.!?]+/).filter(s => s.trim().length > 0)]. *)
Definition allSentences (answer : str) : list str :=
  filter (fun s => 0 <? length (trim s)) (split isSentenceEnd answer).

(** The safety net of [onresult]. *)
Definition limitAnswer (answer : str) : str :=
  let limitedSentences := firstn 3 (allSentences answer) in
  join (lit ". ") limitedSentences
  ++ (if 0 <? length limitedSentences then lit "." else []).

(** What a second pass of the safety net finds: the separator [". "] has
    put a space in front of every sentence after the first. *)
Definition respace (sentences : list str) : list str :=
  match sentences with
  | [] => []
  | x :: r => x :: map (cons " "%char) r
  end.

(** The characters that never make a sentence. *)
Definition isFiller (c : ascii) : bool := isSentenceEnd c || isWhiteSpace c.

Definition troubleGetting :=
  lit "I had trouble getting an answer. Please try again.".

(** The text of the assistant entry: for a reply,
    [response.answer || "I couldn't find ..."], then the safety net; the
    text of the [catch] when the call rejected. *)
Definition assistantText (response : Outcome Reply) : str :=
  match response with
  | Return response =>
      let answer :=
        if nonEmpty (r_answer response) then r_answer response
        else noMatchingRule in
      limitAnswer answer
  | Throw => troubleGetting
  end.

(** The answer pipeline of the voice session, from the recognised query to
    the text shown; the session always asks for the game [catan-base]. *)
Definition shownAnswer (env : Env) (net : Transport) (query : str) : str :=
  assistantText (askRulebook env net query (lit "catan-base")).

End Client.

Import Client.

(** ** The voice session of the session screen *)

Module Voice.

(** The messages passed to [setError]. *)
Inductive Notice :=
| MicNotFound            (* 'Microphone not found or not accessible. ...' *)
| PermissionDenied       (* 'Microphone permission denied. ...' *)
| Retrying (n max : nat) (* `Connection issue (retry n/max)...` *)
| CannotConnectGuidance  (* 'Cannot connect ... This may be due to: ...' *)
| CannotConnect          (* 'Cannot connect ... Check your internet ...' *)
| Unavailable            (* 'Speech recognition unavailable. ...' *)
| NotInitialized         (* 'Speech recognition not initialized. ...' *)
| NotAvailable           (* 'Speech recognition is not available ...' *)
| PermissionRequired     (* 'Microphone permission required. ...' *)
| CouldNotStart (detail : str). (* 'Could not start listening: ' + ... *)

Inductive Role := user | assistant.

Record Entry := mkEntry { e_type : Role; e_text : str }.

(** The callbacks handed to [setTimeout]. *)
Inductive Task :=
| Restart      (* of [onend], after 100 ms *)
| Retry        (* of [onerror], after 500 ms *)
| ClearNotice. (* of [onerror], after 2000 ms *)

Record Timer := mkTimer { delay : nat; task : Task }.

(** Calls made to the capture and speech-output capabilities. *)
Inductive Call :=
| CallStart
| CallStop
| Speak (utterance : str)
| CancelSpeech.

(** What [recognition.start()] does when it is called. *)
Inductive StartResult :=
| Started
| StartThrows (name message : str).

(** The React state and refs of the screen, with the timers that are
    scheduled and have not run, and the capability calls made so far, the
    latest first.
    [recognition] tells that [recognitionRef.current] is set,
    [speechSynthesis] that the window has the speech-output capability. *)
Record Session := mkSession
  { listening : bool;
    speechSupported : bool;
    error : option Notice;
    isHushed : bool;
    transcript : list Entry;
    recognition : bool;
    speechSynthesis : bool;
    isHolding : bool;
    recognitionActive : bool;
    retryCount : nat;
    timers : list Timer;
    calls : list Call }.

Definition maxRetries : nat := 3.

Definition setListening (b : bool) (s : Session) : Session :=
  mkSession b (speechSupported s) (error s) (isHushed s) (transcript s)
    (recognition s) (speechSynthesis s) (isHolding s) (recognitionActive s)
    (retryCount s) (timers s) (calls s).

Definition setError (e : option Notice) (s : Session) : Session :=
  mkSession (listening s) (speechSupported s) e (isHushed s) (transcript s)
    (recognition s) (speechSynthesis s) (isHolding s) (recognitionActive s)
    (retryCount s) (timers s) (calls s).

Definition setTranscript (t : list Entry) (s : Session) : Session :=
  mkSession (listening s) (speechSupported s) (error s) (isHushed s) t
    (recognition s) (speechSynthesis s) (isHolding s) (recognitionActive s)
    (retryCount s) (timers s) (calls s).

Definition setIsHolding (b : bool) (s : Session) : Session :=
  mkSession (listening s) (speechSupported s) (error s) (isHushed s)
    (transcript s) (recognition s) (speechSynthesis s) b (recognitionActive s)
    (retryCount s) (timers s) (calls s).

Definition setRecognitionActive (b : bool) (s : Session) : Session :=
  mkSession (listening s) (speechSupported s) (error s) (isHushed s)
    (transcript s) (recognition s) (speechSynthesis s) (isHolding s) b
    (retryCount s) (timers s) (calls s).

Definition setRetryCount (n : nat) (s : Session) : Session :=
  mkSession (listening s) (speechSupported s) (error s) (isHushed s)
    (transcript s) (recognition s) (speechSynthesis s) (isHolding s)
    (recognitionActive s) n (timers s) (calls s).

Definition setTimers (t : list Timer) (s : Session) : Session :=
  mkSession (listening s) (speechSupported s) (error s) (isHushed s)
    (transcript s) (recognition s) (speechSynthesis s) (isHolding s)
    (recognitionActive s) (retryCount s) t (calls s).

Definition setTimeout (k : Task) (ms : nat) (s : Session) : Session :=
  setTimers (timers s ++ [mkTimer ms k]) s.

Definition call (c : Call) (s : Session) : Session :=
  mkSession (listening s) (speechSupported s) (error s) (isHushed s)
    (transcript s) (recognition s) (speechSynthesis s) (isHolding s)
    (recognitionActive s) (retryCount s) (timers s) (c :: calls s).

Definition setIsHushed (b : bool) (s : Session) : Session :=
  mkSession (listening s) (speechSupported s) (error s) b (transcript s)
    (recognition s) (speechSynthesis s) (isHolding s) (recognitionActive s)
    (retryCount s) (timers s) (calls s).

Definition setRecognition (b : bool) (s : Session) : Session :=
  mkSession (listening s) (speechSupported s) (error s) (isHushed s)
    (transcript s) b (speechSynthesis s) (isHolding s) (recognitionActive s)
    (retryCount s) (timers s) (calls s).

(** The screen once the effect has created the recogniser. *)
Definition mounted : Session :=
  mkSession false true None false [] true true false false 0 [] [].

Definition onstart (s : Session) : Session :=
  setRetryCount 0
    (setError None (setListening true (setRecognitionActive true s))).

Definition onend (s : Session) : Session :=
  let s := setListening false (setRecognitionActive false s) in
  if isHolding s && recognition s then setTimeout Restart 100 s else s.

(** The callback [onend] schedules.  A throwing [start()] is not caught
    there and changes no state. *)
Definition restartCallback (s : Session) : Session :=
  if isHolding s && recognition s then call CallStart s else s.

(** The callback the [network] branch of [onerror] schedules. *)
Definition retryCallback (r : StartResult) (s : Session) : Session :=
  if isHolding s && recognition s && negb (recognitionActive s) then
    let s := call CallStart s in
    match r with
    | Started => s
    | StartThrows _ _ =>
        if maxRetries <=? retryCount s then
          setError (Some CannotConnect) (setIsHolding false s)
        else s
    end
  else s.

Definition clearCallback (s : Session) : Session :=
  if retryCount s <? maxRetries then setError None s else s.

(** The end of [onerror]: what is done with [errorMessage] and
    [shouldRetry]. *)
Definition report (errorMessage : option Notice) (shouldRetry : bool)
  (s : Session) : Session :=
  match errorMessage with
  | Some m =>
      if negb shouldRetry then setError (Some m) s
      else setTimeout ClearNotice 2000 (setError (Some m) s)
  | None => setError None s
  end.

Definition onerror (eventError : str) (s : Session) : Session :=
  let s := setListening false (setRecognitionActive false s) in
  if eqb_str eventError (lit "no-speech") then report None false s
  else if eqb_str eventError (lit "audio-capture") then
    report (Some MicNotFound) false (setIsHolding false s)
  else if eqb_str eventError (lit "not-allowed") then
    report (Some PermissionDenied) false (setIsHolding false s)
  else if eqb_str eventError (lit "network") then
    if isHolding s && (retryCount s <? maxRetries) then
      let s := setRetryCount (S (retryCount s)) s in
      let errorMessage := Retrying (retryCount s) maxRetries in
      let s := setTimeout Retry 500 s in
      report (Some errorMessage) true s
    else
      report (Some CannotConnectGuidance) false
        (setRetryCount 0 (setIsHolding false s))
  else if eqb_str eventError (lit "aborted") then
    report None false (setRetryCount 0 s)
  else report (Some Unavailable) false (setIsHolding false s).

Definition startListening (r : StartResult) (s : Session) : Session :=
  if negb (speechSupported s) || negb (recognition s) then
    setError
      (Some (if negb (recognition s) then NotInitialized else NotAvailable))
      s
  else
    let s := setRetryCount 0 (setError None (setIsHolding true s)) in
    if negb (recognitionActive s) then
      let s := call CallStart s in
      match r with
      | Started => s
      | StartThrows name message =>
          if nonEmpty message
             && (includes message (lit "already started")
                 || includes message (lit "started"))
          then setListening true (setRecognitionActive true s)
          else if eqb_str name (lit "InvalidStateError")
                  || includes message (lit "not allowed")
          then setIsHolding false (setError (Some PermissionRequired) s)
          else
            let detail := if nonEmpty message then message else name in
            setIsHolding false (setError (Some (CouldNotStart detail)) s)
      end
    else s.

Definition stopListening (s : Session) : Session :=
  let s := setIsHolding false s in
  if negb (recognition s) then s
  else if recognitionActive s then
    setRecognitionActive false (call CallStop s)
  else s.

(** [onresult], up to the [await]: the user entry. *)
Definition onresult (query : str) (s : Session) : Session :=
  setTranscript (transcript s ++ [mkEntry user query]) s.

(** [onresult], after the [await]: the assistant entry, spoken unless
    hushed. *)
Definition onanswer (response : Outcome Reply) (s : Session) : Session :=
  let limitedAnswer := assistantText response in
  let s :=
    setTranscript (transcript s ++ [mkEntry assistant limitedAnswer]) s in
  if negb (isHushed s) && speechSynthesis s then
    call (Speak limitedAnswer) s
  else s.

Definition handleHushToggle (s : Session) : Session :=
  let s := setIsHushed (negb (isHushed s)) s in
  if speechSynthesis s then call CancelSpeech s else s.

(** The cleanup of the effect, when the screen goes away. *)
Definition cleanup (s : Session) : Session :=
  let s :=
    if recognition s then setRecognition false (call CallStop s) else s in
  if speechSynthesis s then call CancelSpeech s else s.

(** What happens to a session. *)
Inductive Event :=
| Press (r : StartResult)
| Release
| OnStart
| OnEnd
| OnError (eventError : str)
| OnResult (query : str)
| OnAnswer (response : Outcome Reply)
| HushToggle
| Fires (i : nat) (r : StartResult)
| Unmount.

(** The [i]-th scheduled timer fires: it leaves the list and its callback
    runs. *)
Definition fires (i : nat) (r : StartResult) (s : Session) : Session :=
  match nth_error (timers s) i with
  | None => s
  | Some t =>
      let s := setTimers (firstn i (timers s) ++ skipn (S i) (timers s)) s in
      match task t with
      | Restart => restartCallback s
      | Retry => retryCallback r s
      | ClearNotice => clearCallback s
      end
  end.

Definition step (s : Session) (e : Event) : Session :=
  match e with
  | Press r => startListening r s
  | Release => stopListening s
  | OnStart => onstart s
  | OnEnd => onend s
  | OnError eventError => onerror eventError s
  | OnResult query => onresult query s
  | OnAnswer response => onanswer response s
  | HushToggle => handleHushToggle s
  | Fires i r => fires i r s
  | Unmount => cleanup s
  end.

Definition run (s : Session) (events : list Event) : Session :=
  fold_left step events s.

(** The fatal state after network errors: holding cleared, the guidance
    shown. *)
Definition fatal (s : Session) : Prop :=
  isHolding s = false /\ error s = Some CannotConnectGuidance.

(** The number of scheduled timers that would retry the start. *)
Definition pendingRetries (s : Session) : nat :=
  length (filter (fun t => match task t with Retry => true | _ => false end)
            (timers s)).

End Voice.

Import Voice.

(** ** The local rules of [rules/catanRules] and the rules search screen *)

Module Rules.

Record Rule := mkRule
  { id : nat; title : str; keywords : list str; answer : str; source : str }.

Definition catanRules : list Rule :=
  [ mkRule 1 (lit "Initial Settlement Placement")
      (map lit ["initial"; "settlement"; "placement"; "starting";
                "beginning"; "first"]%string)
      (lit "Players take turns placing one settlement and one road. The first player places two settlements and two roads, then the last player does the same in reverse order. Settlements must be at least two roads apart from other settlements.")
      (lit "Catan Rulebook - Setup");
    mkRule 2 (lit "Resource Production")
      (map lit ["resource"; "production"; "roll"; "dice"; "number";
                "generate"]%string)
      (lit "On each turn, roll two dice. All hexes with the rolled number produce resources for adjacent settlements and cities. Cities produce two resources, settlements produce one.")
      (lit "Catan Rulebook - Turn Sequence");
    mkRule 3 (lit "Trading")
      (map lit ["trade"; "trading"; "exchange"; "port"; "harbor";
                "maritime"]%string)
      (lit "Players can trade resources with other players or use ports. Ports allow trading 2:1 or 3:1 depending on the port type. General trading is 4:1 with the bank.")
      (lit "Catan Rulebook - Trading");
    mkRule 4 (lit "Building Roads")
      (map lit ["road"; "building"; "construct"; "brick"; "wood";
                "lumber"]%string)
      (lit "Roads cost one brick and one wood. They connect settlements and cities. The longest road of five or more segments earns two victory points.")
      (lit "Catan Rulebook - Building");
    mkRule 5 (lit "Robber and 7")
      (map lit ["robber"; "seven"; "7"; "steal"; "knight"; "block"]%string)
      (lit "When a 7 is rolled, the active player moves the robber to any hex, blocking resource production there. They may steal one resource from a player with a settlement or city on that hex.")
      (lit "Catan Rulebook - Special Rolls");
    mkRule 6 (lit "Development Cards")
      (map lit ["development"; "card"; "knight"; "victory";
                "progress"]%string)
      (lit "Development cards cost one sheep, one wheat, and one ore. They can be knights, progress cards, or victory point cards. Play them on your turn, except victory points which are revealed at game end.")
      (lit "Catan Rulebook - Development Cards");
    mkRule 7 (lit "Victory Points")
      (map lit ["victory"; "point"; "win"; "winning"; "points";
                "score"]%string)
      (lit "The first player to reach 10 victory points wins. Points come from settlements, cities, longest road, largest army, and victory point development cards.")
      (lit "Catan Rulebook - Winning") ].

(** [confidence] is [keywordMatches * 0.5 + titleMatch], a multiple of one
    half that the doubles hold exactly; the model keeps twice its value,
    which compares the same. *)
Record Match := mkMatch { rule : Rule; twiceConfidence : nat }.

Definition keywordMatches (lowerQuery : str) (r : Rule) : nat :=
  length
    (filter (fun keyword => includes lowerQuery (toLowerCase keyword))
       (keywords r)).

Definition titleMatch (lowerQuery : str) (r : Rule) : nat :=
  if includes lowerQuery (toLowerCase (title r)) then 2 else 0.

Definition rate (lowerQuery : str) (r : Rule) : Match :=
  mkMatch r (keywordMatches lowerQuery r + 2 * titleMatch lowerQuery r).

(** [sort((a, b) => b.confidence - a.confidence)], a stable sort. *)
Fixpoint insertMatch (x : Match) (l : list Match) : list Match :=
  match l with
  | [] => [x]
  | y :: r => if twiceConfidence y <=? twiceConfidence x then x :: y :: r
              else y :: insertMatch x r
  end.

Definition sortMatches (l : list Match) : list Match :=
  fold_right insertMatch [] l.

(** [findRule] over a list of rules. *)
Definition findRuleIn (rules : list Rule) (query : str) : option Match :=
  let lowerQuery := toLowerCase query in
  let matches :=
    sortMatches
      (filter (fun m => 0 <? twiceConfidence m)
         (map (rate lowerQuery) rules)) in
  match matches with
  | m :: _ => Some m
  | [] => None
  end.

Definition findRule (query : str) : option Match :=
  findRuleIn catanRules query.

(** The results [handleSearch] sets on the search screen, over a list of
    rules. *)
Definition searchIn (rules : list Rule) (query : str) : list Rule :=
  if negb (nonEmpty (trim query)) then []
  else
    match findRuleIn rules query with
    | Some m => [rule m]
    | None =>
        let lowerQuery := toLowerCase query in
        filter
          (fun r =>
             existsb (fun kw => includes lowerQuery (toLowerCase kw))
               (keywords r)
             || includes (toLowerCase (title r)) lowerQuery)
          rules
    end.

Definition handleSearch (query : str) : list Rule :=
  searchIn catanRules query.

Definition noMatchText :=
  lit "I couldn't find a matching rule. Try asking about settlements, resources, trading, or building.".

(** The assistant text of the session screen that answers from the local
    rules: the limiter there always appends the period. *)
Definition localAnswer (query : str) : str :=
  match findRule query with
  | Some m =>
      let limitedSentences := firstn 3 (allSentences (answer (rule m))) in
      join (lit ". ") limitedSentences ++ lit "."
  | None => noMatchText
  end.

End Rules.

(** ** Readings of a session and of a trace *)

Module Trace.

(** The transcript entries that a list of events produces. *)
Fixpoint entriesOf (events : list Event) : list Entry :=
  match events with
  | [] => []
  | OnResult query :: r => mkEntry user query :: entriesOf r
  | OnAnswer response :: r =>
      mkEntry assistant (assistantText response) :: entriesOf r
  | _ :: r => entriesOf r
  end.

Definition isStart (c : Call) : bool :=
  match c with CallStart => true | _ => false end.

Definition isSpeak (c : Call) : bool :=
  match c with Speak _ => true | _ => false end.

(** How often [recognition.start()] has been called. *)
Definition startCalls (s : Session) : nat :=
  length (filter isStart (calls s)).

(** The engine confirms each start and then reports a network error. *)
Fixpoint confirmedFailures (n : nat) : list Event :=
  match n with
  | 0 => []
  | S k => OnStart :: OnError (lit "network") :: confirmedFailures k
  end.

End Trace.

Import Trace.

(** ** The start of the session screen: which browsers get a recogniser *)

Module Startup.

(** What the effect reads of the window. *)
Record Browser := mkBrowser
  { isSecureContext : bool;
    protocol : str;
    hostname : str;
    userAgent : str;
    hasSpeechRecognition : bool;
    hasWebkitSpeechRecognition : bool }.

(** [/a|b|c/i.test(s)]: one of the words occurs in [s], whatever the
    case. *)
Definition testAnyIgnoringCase (words : list str) (s : str) : bool :=
  existsb (fun w => includes (toLowerCase s) (toLowerCase w)) words.

Definition isMobile (b : Browser) : bool :=
  testAnyIgnoringCase
    (map lit ["Android"; "webOS"; "iPhone"; "iPad"; "iPod"; "BlackBerry";
              "IEMobile"; "Opera Mini"]%string)
    (userAgent b).

Definition isIOS (b : Browser) : bool :=
  testAnyIgnoringCase (map lit ["iPhone"; "iPad"; "iPod"]%string)
    (userAgent b).

Definition isFirefox (b : Browser) : bool :=
  includes (userAgent b) (lit "Firefox").

Definition secure (b : Browser) : bool :=
  isSecureContext b
  || eqb_str (protocol b) (lit "https:")
  || eqb_str (hostname b) (lit "localhost")
  || eqb_str (hostname b) (lit "127.0.0.1").

(** The messages the effect passes to [setError]. *)
Inductive Refusal :=
| NeedsHttps      (* 'Speech recognition requires HTTPS. ...' *)
| NoFirefox       (* 'Firefox does not support voice input. ...' *)
| NotOnIOS        (* 'Voice input is not available on iOS. ...' *)
| MaybeNotMobile  (* 'Voice input may not work on mobile browsers. ...' *)
| NoRecognition.  (* 'Speech recognition is not available in this
                      browser. Try Chrome, Edge, or Safari.' *)

(** What the effect leaves: [speechSupported], the error it set, and
    whether it created the recogniser. *)
Record Started := mkStarted
  { supported : bool; refusal : option Refusal; created : bool }.

Definition initialize (b : Browser) : Started :=
  if negb (secure b) then mkStarted false (Some NeedsHttps) false
  else if isFirefox b then mkStarted false (Some NoFirefox) false
  else if negb (hasSpeechRecognition b)
          && negb (hasWebkitSpeechRecognition b) then
    if isIOS b then mkStarted false (Some NotOnIOS) false
    else if isMobile b then mkStarted false (Some MaybeNotMobile) false
    else mkStarted false (Some NoRecognition) false
  else if isMobile b && isIOS b then mkStarted false (Some NotOnIOS) false
  else mkStarted true None true.

End Startup.

(** ** Sample data *)

Definition roads : Chunk :=
  mkChunk (lit "c4") (lit "catan-base") 7 (lit "Building Roads")
    (lit "Roads cost one brick and one wood").

Definition trading : Chunk :=
  mkChunk (lit "c3") (lit "catan-base") 9 (lit "Trading")
    (lit "Players can trade resources with other players or use ports").

Definition castling : Chunk :=
  mkChunk (lit "k1") (lit "chess") 3 (lit "Castling")
    (lit "The king moves two squares and the rook jumps; no road is built").

Definition completion (content : str) : Json :=
  JObj [(lit "choices",
         JArr [JObj [(lit "message", JObj [(lit "content", JStr content)])]])].

(** A payload of two completions, the first of white space only. *)
Definition blankMessage : list (str * Json) :=
  [(lit "role", JStr (lit "assistant")); (lit "content", JStr (lit "   "))].

Definition blankChoice : list (str * Json) :=
  [(lit "index", JNum (lit "0")); (lit "message", JObj blankMessage)].

Definition blankThenNo : list (str * Json) :=
  [(lit "id", JStr (lit "cmpl-1"));
   (lit "choices",
    JArr [JObj blankChoice;
          JObj [(lit "message", JObj [(lit "content", JStr (lit "No"))])]])].

Definition sampleEnv (r : ModelOutcome) : Env :=
  mkEnv (Some [castling; roads; trading]) (Some (lit "sk-test"))
    (fun _ => r).

Definition post (gameId question : str) : Request :=
  mkRequest (lit "POST") (Some (mkBody (Text gameId) (Text question))).

Definition network : str := lit "network".

(** * Proofs *)

(** ** Strings *)

Section StringFacts.

Lemma eqb_str_eq (a b : str) : eqb_str a b = true <-> a = b.
Proof.
  revert b; induction a as [|c a IH]; intros [|d b]; simpl;
    try (split; [discriminate | congruence]); try tauto.
  rewrite andb_true_iff, Ascii.eqb_eq, IH.
  split; [intros [-> ->]; reflexivity | intros H; inversion H; auto].
Qed.

Lemma nonEmpty_true (s : str) : nonEmpty s = true <-> s <> [].
Proof.
  destruct s as [|c s]; unfold nonEmpty; simpl; split; intros H;
    try reflexivity; try discriminate; congruence.
Qed.

End StringFacts.

(** ** Scoring *)

Section Scoring.

Lemma fold_count (A : Type) (p : A -> bool) (f : A -> nat) (l : list A) :
  forall acc,
    fold_left (fun score q => if p q then score + f q else score) l acc
    = acc + list_sum (map f (filter p l)).
Proof.
  induction l as [|q l IH]; intros acc; simpl.
  - lia.
  - rewrite IH. destruct (p q); simpl; lia.
Qed.

Lemma fold_bonus (A : Type) (p : A -> bool) (l : list A) :
  forall acc,
    fold_left (fun score q => if p q then score + 2 else score) l acc
    = acc + 2 * length (filter p l).
Proof.
  induction l as [|q l IH]; intros acc; simpl.
  - lia.
  - rewrite IH. destruct (p q); simpl; lia.
Qed.

End Scoring.

(** ** Ranking *)

Section Ranking.

Variable question : str.

Local Abbreviation rank := (scoreChunk question).

Lemma insert_desc_In (x y : ScoredChunk) (l : list ScoredChunk) :
  In y (insert_desc x l) <-> y = x \/ In y l.
Proof.
  induction l as [|z l IH]; simpl.
  - intuition congruence.
  - destruct (score z <=? score x); simpl; rewrite ?IH; intuition congruence.
Qed.

Lemma sort_desc_In (y : ScoredChunk) (l : list ScoredChunk) :
  In y (sort_desc l) <-> In y l.
Proof.
  induction l as [|x l IH]; simpl; [tauto|].
  rewrite insert_desc_In, IH. intuition congruence.
Qed.

Lemma insert_desc_sorted (x : ScoredChunk) (l : list ScoredChunk) :
  StronglySorted byScore l -> StronglySorted byScore (insert_desc x l).
Proof.
  induction l as [|z l IH]; simpl; intros Hs.
  - constructor; [constructor | constructor].
  - destruct (score z <=? score x) eqn:E.
    + apply Nat.leb_le in E.
      constructor; [exact Hs|].
      apply StronglySorted_inv in Hs as [_ Hz].
      constructor; [exact E|].
      rewrite Forall_forall in *. intros w Hw. unfold byScore in *.
      specialize (Hz w Hw). lia.
    + apply Nat.leb_gt in E.
      apply StronglySorted_inv in Hs as [Hl Hz].
      constructor; [apply IH; exact Hl|].
      rewrite Forall_forall in *. intros w Hw.
      apply insert_desc_In in Hw as [-> | Hw];
        [unfold byScore; lia | apply Hz; exact Hw].
Qed.

Lemma sort_desc_sorted (l : list ScoredChunk) :
  StronglySorted byScore (sort_desc l).
Proof.
  induction l as [|x l IH]; simpl; [constructor|].
  apply insert_desc_sorted, IH.
Qed.

(** Stability: among the items of one score, the sort keeps the order. *)
Lemma insert_desc_ties (v : nat) (x : ScoredChunk) (l : list ScoredChunk) :
  StronglySorted byScore l ->
  filter (fun i => score i =? v) (insert_desc x l)
  = filter (fun i => score i =? v) (x :: l).
Proof.
  induction l as [|z l IH]; intros Hs; [reflexivity|].
  simpl. destruct (score z <=? score x) eqn:E; [reflexivity|].
  apply Nat.leb_gt in E.
  apply StronglySorted_inv in Hs as [Hl Hz].
  simpl. rewrite (IH Hl). simpl.
  destruct (score x =? v) eqn:Ex; [|reflexivity].
  apply Nat.eqb_eq in Ex.
  destruct (score z =? v) eqn:Ez; [|reflexivity].
  apply Nat.eqb_eq in Ez. lia.
Qed.

Lemma sort_desc_ties (v : nat) (l : list ScoredChunk) :
  filter (fun i => score i =? v) (sort_desc l)
  = filter (fun i => score i =? v) l.
Proof.
  induction l as [|x l IH]; [reflexivity|].
  simpl sort_desc. rewrite insert_desc_ties by apply sort_desc_sorted.
  simpl. rewrite IH. reflexivity.
Qed.

Local Abbreviation ranked := (ranked question).

Lemma ranked_made (chunks : list Chunk) (i : ScoredChunk) :
  In i (ranked chunks) ->
  In (chunk i) chunks /\ score i = rank (chunk i) /\ 0 < score i.
Proof.
  unfold ranked. rewrite sort_desc_In, filter_In, in_map_iff.
  intros [[c [<- Hc]] Hpos]. simpl in *.
  apply Nat.ltb_lt in Hpos. auto.
Qed.

Lemma retrieveChunks_ranked (chunks : list Chunk) (topN : nat) :
  retrieveChunks question chunks topN
  = map chunk (firstn topN (ranked chunks)).
Proof. reflexivity. Qed.

Lemma filter_none (A : Type) (p : A -> bool) (l : list A) :
  (forall x, In x l -> p x = false) -> filter p l = [].
Proof.
  induction l as [|x l IH]; intros H; simpl; [reflexivity|].
  rewrite (H x) by now left. apply IH. intros y Hy. apply H. now right.
Qed.

Lemma firstn_In (A : Type) (n : nat) (l : list A) (x : A) :
  In x (firstn n l) -> In x l.
Proof.
  intros H. rewrite <- (firstn_skipn n l). apply in_or_app. now left.
Qed.

Lemma retrieveChunks_In (chunks : list Chunk) (topN : nat) (c : Chunk) :
  In c (retrieveChunks question chunks topN) ->
  In c chunks /\ 0 < rank c.
Proof.
  rewrite retrieveChunks_ranked, in_map_iff. intros [i [<- Hi]].
  apply firstn_In, ranked_made in Hi as (Hin & Hs & Hpos).
  split; [exact Hin | rewrite <- Hs; exact Hpos].
Qed.

Lemma firstn_sorted (A : Type) (R : A -> A -> Prop) (n : nat) (l : list A) :
  StronglySorted R l -> StronglySorted R (firstn n l).
Proof.
  revert n; induction l as [|x l IH]; intros [|n] Hs; simpl;
    try constructor.
  - apply IH. now apply StronglySorted_inv in Hs.
  - apply StronglySorted_inv in Hs as [_ Hx].
    rewrite Forall_forall in *. intros y Hy. apply Hx.
    now apply firstn_In in Hy.
Qed.

Lemma map_sorted (l : list ScoredChunk) :
  (forall i, In i l -> score i = rank (chunk i)) ->
  StronglySorted byScore l ->
  StronglySorted (fun a b => rank b <= rank a) (map chunk l).
Proof.
  induction l as [|x l IH]; intros Hmade Hs; simpl; [constructor|].
  apply StronglySorted_inv in Hs as [Hl Hx].
  constructor.
  - apply IH; [intros i Hi; apply Hmade; now right | exact Hl].
  - rewrite Forall_forall in *. intros c Hc.
    apply in_map_iff in Hc as [i [<- Hi]].
    rewrite <- (Hmade i) by now right.
    rewrite <- (Hmade x) by now left.
    apply Hx, Hi.
Qed.

Lemma map_ties (v : nat) (l : list ScoredChunk) :
  (forall i, In i l -> score i = rank (chunk i)) ->
  filter (fun c => rank c =? v) (map chunk l)
  = map chunk (filter (fun i => score i =? v) l).
Proof.
  induction l as [|x l IH]; intros Hmade; simpl; [reflexivity|].
  rewrite <- (Hmade x) by now left.
  rewrite IH by (intros i Hi; apply Hmade; now right).
  destruct (score x =? v); reflexivity.
Qed.

Lemma ranked_ties (v : nat) (chunks : list Chunk) :
  0 < v ->
  map chunk (filter (fun i => score i =? v) (ranked chunks))
  = filter (fun c => rank c =? v) chunks.
Proof.
  intros Hv. unfold ranked. rewrite sort_desc_ties.
  induction chunks as [|c l IH]; simpl; [reflexivity|].
  destruct (0 <? rank c) eqn:Hpos; simpl.
  - destruct (rank c =? v); simpl; rewrite IH; reflexivity.
  - apply Nat.ltb_ge in Hpos.
    destruct (rank c =? v) eqn:E; [apply Nat.eqb_eq in E; lia | exact IH].
Qed.

(** C3: [retrieveChunks] returns only chunks that score above zero, in
    descending order of score, the chunks of one score in their input order
    (they are the first of the input's chunks of that score), and at most
    [topN] of them; it is a total function, and it returns the empty list
    when no chunk scores above zero. *)
Theorem retrieveChunks_contract (chunks : list Chunk) (topN : nat) :
  let result := retrieveChunks question chunks topN in
  Forall (fun c => 0 < scoreChunk question c) result
  /\ StronglySorted
       (fun a b => scoreChunk question b <= scoreChunk question a) result
  /\ (forall v, exists later,
        filter (fun c => scoreChunk question c =? v) chunks
        = filter (fun c => scoreChunk question c =? v) result ++ later)
  /\ length result <= topN
  /\ ((forall c, In c chunks -> scoreChunk question c = 0) -> result = []).
Proof.
  cbv zeta.
  assert (Hmade : forall n i, In i (firstn n (ranked chunks)) ->
                              score i = rank (chunk i)).
  { intros n i Hi. now apply firstn_In, ranked_made in Hi. }
  repeat split.
  - rewrite Forall_forall. intros c Hc.
    now apply retrieveChunks_In in Hc.
  - rewrite retrieveChunks_ranked.
    apply map_sorted; [apply Hmade|].
    apply firstn_sorted. unfold ranked. apply sort_desc_sorted.
  - intros v. rewrite retrieveChunks_ranked.
    rewrite map_ties by apply Hmade.
    destruct (Nat.eq_dec v 0) as [-> | Hv].
    + exists (filter (fun c => rank c =? 0) chunks).
      replace (filter (fun i => score i =? 0) (firstn topN (ranked chunks)))
        with (@nil ScoredChunk); [reflexivity|].
      symmetry. apply filter_none. intros i Hi.
      apply firstn_In, ranked_made in Hi as (_ & _ & Hpos).
      apply Nat.eqb_neq. lia.
    + exists (map chunk
                (filter (fun i => score i =? v)
                   (skipn topN (ranked chunks)))).
      rewrite <- map_app, <- filter_app, firstn_skipn.
      symmetry. apply ranked_ties. lia.
  - rewrite retrieveChunks_ranked, length_map. apply firstn_le_length.
  - intros Hzero. rewrite retrieveChunks_ranked.
    destruct (firstn topN (ranked chunks)) as [|i r] eqn:E; [reflexivity|].
    assert (Hi : In i (firstn topN (ranked chunks)))
      by (rewrite E; now left).
    apply firstn_In, ranked_made in Hi as (Hin & Hs & Hpos).
    specialize (Hzero _ Hin). lia.
Qed.

End Ranking.

(** ** The endpoint *)

Section Handler.


Lemma chunksFor_In (gameId : Field) (allChunks : list Chunk) (c : Chunk) :
  In c (chunksFor gameId allChunks) <->
  In c allChunks /\ Text (Retrieval.gameId c) = gameId.
Proof.
  unfold chunksFor. rewrite filter_In.
  destruct gameId as [| t shown | g]; simpl;
    try (intuition discriminate).
  rewrite eqb_str_eq. intuition congruence.
Qed.

Lemma length_zero (A : Type) (l : list A) :
  (length l =? 0) = true <-> l = [].
Proof.
  destruct l; simpl; split; intros H; try reflexivity; discriminate.
Qed.

Ltac branches :=
  repeat match goal with
         | |- context [match ?x with _ => _ end] => destruct x eqn:?
         end.

(** C2: the chunks the handler hands to the scorer are those of the store
    whose [gameId] is the queried one; every chunk retrieval returns is one
    of them; and every source of the response is the page and section of a
    stored chunk of the queried game. *)
Theorem retrieval_within_partition
  (env : Env) (req : Request) (b : Body) (allChunks : list Chunk) :
  body req = Some b ->
  chunkFile env = Some allChunks ->
  let chunks := chunksFor (b_gameId b) allChunks in
  (forall c, In c chunks -> Text (Retrieval.gameId c) = b_gameId b)
  /\ (forall c,
        In c (retrieveChunks (render (b_question b)) chunks 5) ->
        In c chunks /\ Text (Retrieval.gameId c) = b_gameId b)
  /\ (forall src,
        In src (sources (fst (handler env req))) ->
        exists c,
          In c allChunks /\ Text (Retrieval.gameId c) = b_gameId b
          /\ src = mkSource (page c) (section c)).
Proof.
  intros Hb Hfile chunks.
  assert (Hpart : forall c, In c chunks ->
                            Text (Retrieval.gameId c) = b_gameId b).
  { intros c Hc. now apply chunksFor_In in Hc. }
  split; [exact Hpart|]. split.
  - intros c Hc. apply retrieveChunks_In in Hc as [Hc _]. auto.
  - intros src. unfold handler. rewrite Hb, Hfile. fold chunks.
    branches; simpl; try tauto.
    all: rewrite in_map_iff; intros [c [<- Hc]].
    all: apply retrieveChunks_In in Hc as [Hc _].
    all: exists c; split; [|split; [auto | reflexivity]].
    all: now apply chunksFor_In in Hc.
Qed.

(** C10: every response of the handler carries one of the five status
    codes, a non-empty answer string and a list of sources, which is empty
    unless the status is 200. *)
Theorem handler_response_shape (env : Env) (req : Request) :
  let res := fst (handler env req) in
  nonEmpty (answer res) = true
  /\ In (status res) [200; 400; 404; 405; 500]
  /\ (status res <> 200 -> sources res = []).
Proof.
  unfold handler. branches; simpl; intuition congruence.
Qed.

Lemma handler_answer_nonempty (env : Env) (req : Request) :
  answer (fst (handler env req)) <> [].
Proof.
  unfold handler. branches; simpl; discriminate.
Qed.

(** Requests that pass validation, against a store that loads. *)
Section Validated.

Variables (env : Env) (req : Request) (b : Body) (allChunks : list Chunk).

Hypothesis Hpost : method req = lit "POST".
Hypothesis Hbody : body req = Some b.
Hypothesis Hquestion : truthy (b_question b) && isString (b_question b) = true.
Hypothesis HgameId : truthy (b_gameId b) = true.
Hypothesis Hfile : chunkFile env = Some allChunks.

Local Abbreviation chunks := (chunksFor (b_gameId b) allChunks).
Local Abbreviation relevantChunks :=
  (retrieveChunks (render (b_question b)) chunks 5).

Lemma handler_validated :
  handler env req =
  if length chunks =? 0 then (mkResponse 404 (noRulebook (b_gameId b)) [], [])
  else if length relevantChunks =? 0 then (mkResponse 200 notFound [], [])
  else
    match OPENAI_API_KEY env with
    | None | Some [] => (mkResponse 200 unavailable [], [])
    | Some apiKey =>
        let call := buildRequest apiKey (render (b_question b))
                      relevantChunks in
        let failed := (mkResponse 200 troubleReaching [], [call]) in
        match modelService env call with
        | FetchRejected => failed
        | Responded st payload =>
            if negb (ok st) then failed
            else
              match payload with
              | None => failed
              | Some openaiResponse =>
                  match completionText openaiResponse with
                  | Throw => (mkResponse 500 troubleProcessing [], [call])
                  | Return content =>
                      (mkResponse 200
                         match content with
                         | Some (c :: t) => c :: t
                         | _ => couldNotGenerate
                         end
                         (map (fun c => mkSource (page c) (section c))
                            relevantChunks),
                       [call])
                  end
              end
        end
    end.
Proof.
  unfold handler.
  rewrite Hpost, Hbody, Hfile, HgameId.
  apply andb_true_iff in Hquestion as [-> ->].
  reflexivity.
Qed.


Hypothesis Hrelevant : relevantChunks <> [].

(** C6, as the code has it: with a missing credential the handler answers
    with the fixed unavailable message; when the call to the model service
    fails (the request is rejected, the status is not a success, or the body
    does not parse) it answers with the fixed trouble-reaching message; both
    with status 200 and no sources.  A body that parses and holds no
    completion text, or a blank one, is not taken for a failure: the answer
    is the fixed could-not-generate message, with the sources of the
    retrieved chunks.  A payload whose reading throws is answered by the
    outer handler, with status 500 and no sources: nothing is raised. *)
Theorem model_failure_degrades :
  (OPENAI_API_KEY env = None \/ OPENAI_API_KEY env = Some [] ->
   handler env req = (mkResponse 200 unavailable [], []))
  /\ (forall apiKey,
        OPENAI_API_KEY env = Some apiKey -> apiKey <> [] ->
        let call := buildRequest apiKey (render (b_question b))
                      relevantChunks in
        (modelService env call = FetchRejected
         \/ (exists st payload,
               modelService env call = Responded st payload
               /\ (ok st = false \/ payload = None)) ->
         handler env req = (mkResponse 200 troubleReaching [], [call]))
        /\ (forall st openaiResponse,
              modelService env call = Responded st (Some openaiResponse) ->
              ok st = true ->
              completionText openaiResponse = Throw ->
              handler env req
              = (mkResponse 500 troubleProcessing [], [call]))
        /\ (forall st openaiResponse,
              modelService env call = Responded st (Some openaiResponse) ->
              ok st = true ->
              completionText openaiResponse = Return None
              \/ completionText openaiResponse = Return (Some []) ->
              handler env req
              = (mkResponse 200 couldNotGenerate
                   (map (fun c => mkSource (page c) (section c))
                      relevantChunks),
                 [call])
              /\ sources (fst (handler env req)) <> [])).
Proof.
  rewrite handler_validated.
  assert (Hrel : (length relevantChunks =? 0) = false).
  { destruct (length relevantChunks =? 0) eqn:E; [|reflexivity].
    apply length_zero in E. contradiction. }
  assert (Hpart : (length chunks =? 0) = false).
  { destruct (length chunks =? 0) eqn:E; [|reflexivity].
    apply length_zero in E. exfalso. apply Hrelevant.
    rewrite E. reflexivity. }
  rewrite Hpart, Hrel. split.
  - intros [-> | ->]; reflexivity.
  - intros apiKey -> Hkey call. subst call.
    destruct apiKey as [|k apiKey]; [contradiction|].
    cbv zeta. split; [|split].
    + intros [-> | (st & payload & -> & [Hst | ->])].
      * reflexivity.
      * rewrite Hst. reflexivity.
      * destruct (ok st); reflexivity.
    + intros st j -> -> ->. reflexivity.
    + intros st j -> -> Hnone.
      assert (Hsome : map (fun c => mkSource (page c) (section c))
                        relevantChunks <> []).
      { destruct relevantChunks; [contradiction | discriminate]. }
      destruct Hnone as [-> | ->]; split; try reflexivity; exact Hsome.
Qed.

(** A payload that parses and holds no completion text is not a failure of
    the call: the handler answers with its could-not-generate text and
    keeps the sources of the retrieved chunks. *)
Lemma payload_without_completion (apiKey : str) (st : nat)
  (openaiResponse : Json) :
  OPENAI_API_KEY env = Some apiKey -> apiKey <> [] ->
  modelService env
    (buildRequest apiKey (render (b_question b)) relevantChunks)
  = Responded st (Some openaiResponse) ->
  ok st = true ->
  completionText openaiResponse = Return None ->
  handler env req
  = (mkResponse 200 couldNotGenerate
       (map (fun c => mkSource (page c) (section c)) relevantChunks),
     [buildRequest apiKey (render (b_question b)) relevantChunks]).
Proof.
  intros Hkey Hne Hcall Hok Hnone. rewrite handler_validated.
  destruct (length chunks =? 0) eqn:E.
  { apply length_zero in E. exfalso. apply Hrelevant.
    rewrite E. reflexivity. }
  destruct (length relevantChunks =? 0) eqn:E'.
  { apply length_zero in E'. contradiction. }
  rewrite Hkey. destruct apiKey as [|k apiKey]; [contradiction|].
  cbv zeta. rewrite Hcall, Hok, Hnone. reflexivity.
Qed.

End Validated.

Lemma retrieval_within_partition_witness :
  let env :=
    sampleEnv (Responded 200 (Some (completion (lit "One brick, one wood."))))
  in
  let req := post (lit "catan-base") (lit "How do I build a road") in
  sources (fst (handler env req))
  = [mkSource 7 (lit "Building Roads"); mkSource 9 (lit "Trading")]
  /\ (forall src,
        In src (sources (fst (handler env req))) ->
        exists c,
          In c [castling; roads; trading]
          /\ Text (Retrieval.gameId c) = Text (lit "catan-base")
          /\ src = mkSource (page c) (section c)).
Proof.
  intros env req. split; [vm_compute; reflexivity|].
  apply (retrieval_within_partition env req
           (b := mkBody (Text (lit "catan-base"))
                   (Text (lit "How do I build a road")))
           eq_refl eq_refl).
Defined.


Lemma model_failure_degrades_witness :
  fst (handler (sampleEnv (Responded 503 None))
         (post (lit "catan-base") (lit "How do I build a road")))
  = mkResponse 200 troubleReaching []
  /\ handler (mkEnv (Some [roads]) None (fun _ => FetchRejected))
       (post (lit "catan-base") (lit "How do I build a road"))
     = (mkResponse 200 unavailable [], []).
Proof.
  split.
  - destruct (model_failure_degrades (sampleEnv (Responded 503 None))
                (post (lit "catan-base") (lit "How do I build a road"))
                eq_refl eq_refl eq_refl eq_refl eq_refl)
      as [_ H].
    + vm_compute. discriminate.
    + destruct (H (lit "sk-test") eq_refl) as [Hfail _].
      * discriminate.
      * rewrite Hfail; [reflexivity|].
        right. exists 503, None. split; [reflexivity | now left].
  - destruct (model_failure_degrades
                (mkEnv (Some [roads]) None (fun _ => FetchRejected))
                (post (lit "catan-base") (lit "How do I build a road"))
                eq_refl eq_refl eq_refl eq_refl eq_refl)
      as [H _].
    + vm_compute. discriminate.
    + apply H. now left.
Defined.

(** C6, as the specification has it, fails on a response of the model
    service that is malformed in its content: a body with status 200 that
    parses and holds no completion is answered with the could-not-generate
    text and the sources of the retrieved chunks, not with empty
    sources. *)
Lemma empty_payload_keeps_sources :
  let res :=
    fst (handler (sampleEnv (Responded 200 (Some (JObj []))))
           (post (lit "catan-base") (lit "How do I build a road"))) in
  answer res = couldNotGenerate
  /\ sources res
     = [mkSource 7 (lit "Building Roads"); mkSource 9 (lit "Trading")]
  /\ sources res <> [].
Proof.
  vm_compute. repeat split. discriminate.
Qed.

End Handler.

(** ** The sentence limiter *)

Section Limiter.

Lemma trimStart_nil (s : str) :
  trimStart s = [] <-> forallb isWhiteSpace s = true.
Proof.
  induction s as [|c s IH]; simpl; [tauto|].
  destruct (isWhiteSpace c); simpl; [exact IH|].
  split; discriminate.
Qed.

Lemma trimStart_blank (s : str) :
  forallb isWhiteSpace (trimStart s) = forallb isWhiteSpace s.
Proof.
  induction s as [|c s IH]; simpl; [reflexivity|].
  destruct (isWhiteSpace c) eqn:E; simpl; [exact IH|].
  rewrite E. reflexivity.
Qed.

Lemma forallb_rev (A : Type) (p : A -> bool) (l : list A) :
  forallb p (rev l) = forallb p l.
Proof.
  induction l as [|x l IH]; simpl; [reflexivity|].
  rewrite forallb_app, IH. simpl. rewrite andb_true_r. apply andb_comm.
Qed.

(** A piece passes the filter of the safety net when it holds a character
    that is not white space. *)
Lemma blank_iff (s : str) :
  (0 <? length (trim s)) = false <-> forallb isWhiteSpace s = true.
Proof.
  rewrite Nat.ltb_ge. unfold trim. rewrite length_rev.
  rewrite <- trimStart_blank, <- forallb_rev, <- trimStart_nil.
  destruct (trimStart (rev (trimStart s))); simpl; split; intros H;
    try reflexivity; try discriminate; lia.
Qed.

Lemma nonblank_nonempty (s : str) :
  (0 <? length (trim s)) = true -> s <> [].
Proof. intros H ->. discriminate. Qed.

Lemma nonblank_space (s : str) :
  (0 <? length (trim (" "%char :: s))) = (0 <? length (trim s)).
Proof. reflexivity. Qed.

Lemma split_from_piece (sep : ascii -> bool) (a : str) :
  forall (inSep : bool) (cur r : str),
    Forall (fun c => sep c = false) a -> a <> [] ->
    split_from sep inSep cur (a ++ r) = split_from sep false (cur ++ a) r.
Proof.
  induction a as [|c a IH]; intros inSep cur r Ha Hne; [contradiction|].
  apply Forall_cons_iff in Ha as [Hc Ha].
  simpl. rewrite Hc.
  destruct a as [|d a].
  - reflexivity.
  - rewrite (IH false) by (auto; discriminate).
    rewrite <- app_assoc. reflexivity.
Qed.

Lemma split_from_pieces (sep : ascii -> bool) (s : str) :
  forall (inSep : bool) (cur : str),
    Forall (fun c => sep c = false) cur ->
    Forall (Forall (fun c => sep c = false)) (split_from sep inSep cur s).
Proof.
  induction s as [|c s IH]; intros inSep cur Hcur; simpl.
  - constructor; [exact Hcur | constructor].
  - destruct (sep c) eqn:E.
    + destruct inSep; [|constructor; [exact Hcur|]]; apply IH; constructor.
    + apply IH. apply Forall_app. split; [exact Hcur|].
      constructor; [exact E | constructor].
Qed.

(** The pieces of a text of fillers only are all blank, and conversely. *)
Lemma split_from_blank (s : str) :
  forall (inSep : bool) (cur : str),
    (inSep = true -> cur = []) ->
    filter (fun p => 0 <? length (trim p))
      (split_from isSentenceEnd inSep cur s) = []
    <-> forallb isWhiteSpace cur = true /\ forallb isFiller s = true.
Proof.
  induction s as [|c s IH]; intros inSep cur Hcur; simpl.
  - destruct (0 <? length (trim cur)) eqn:E.
    + split; [discriminate|]. intros [H _].
      apply blank_iff in H. congruence.
    + apply blank_iff in E. tauto.
  - unfold isFiller at 1. destruct (isSentenceEnd c) eqn:E; simpl.
    + destruct inSep.
      * rewrite (Hcur eq_refl). rewrite IH by reflexivity. reflexivity.
      * simpl. destruct (0 <? length (trim cur)) eqn:B.
        -- split; [discriminate|]. intros [H _].
           apply blank_iff in H. congruence.
        -- apply blank_iff in B. rewrite IH by reflexivity.
           simpl. tauto.
    + rewrite IH by discriminate.
      rewrite forallb_app. simpl.
      rewrite !andb_true_iff. tauto.
Qed.

Lemma allSentences_nil (answer : str) :
  allSentences answer = [] <-> forallb isFiller answer = true.
Proof.
  unfold allSentences, split.
  rewrite split_from_blank by discriminate. simpl. tauto.
Qed.

Lemma allSentences_pieces (answer : str) :
  Forall (fun p => Forall (fun c => isSentenceEnd c = false) p /\ p <> [])
    (allSentences answer).
Proof.
  unfold allSentences, split.
  pose proof (split_from_pieces isSentenceEnd answer false (Forall_nil _))
    as H.
  rewrite Forall_forall in *. intros p Hp.
  apply filter_In in Hp as [Hp Hb].
  split; [apply H, Hp | eapply nonblank_nonempty, Hb].
Qed.

Lemma allSentences_nonblank (answer : str) :
  Forall (fun p => (0 <? length (trim p)) = true) (allSentences answer).
Proof.
  unfold allSentences. rewrite Forall_forall. intros p Hp.
  now apply filter_In in Hp.
Qed.

Lemma limitAnswer_nil (answer : str) :
  limitAnswer answer = [] <-> allSentences answer = [].
Proof.
  unfold limitAnswer.
  destruct (allSentences answer) as [|x l]; simpl; [tauto|].
  split; [|discriminate].
  intros H. apply app_eq_nil in H as [_ H]. discriminate.
Qed.

(** The text the limiter builds from the sentences it keeps. *)
Lemma limitAnswer_kept (answer : str) (x : str) (l : list str) :
  firstn 3 (allSentences answer) = x :: l ->
  limitAnswer answer = join (lit ". ") (x :: l) ++ lit ".".
Proof. unfold limitAnswer. intros ->. reflexivity. Qed.

(** Splitting a rejoined text: the inserted periods separate again, and
    the space that followed each one now leads the next piece. *)
Lemma split_joined (l : list str) :
  forall (inSep : bool) (cur x : str),
    Forall (fun p => Forall (fun c => isSentenceEnd c = false) p /\ p <> [])
      (x :: l) ->
    split_from isSentenceEnd inSep cur (join (lit ". ") (x :: l) ++ lit ".")
    = (cur ++ x) :: map (cons " "%char) l ++ [[]].
Proof.
  induction l as [|y r IH]; intros inSep cur x Hok.
  - apply Forall_cons_iff in Hok as [[Hx Hne] _].
    simpl join. rewrite split_from_piece by assumption.
    reflexivity.
  - apply Forall_cons_iff in Hok as [[Hx Hne] Hrest].
    change (join (lit ". ") (x :: y :: r))
      with (x ++ lit ". " ++ join (lit ". ") (y :: r)).
    rewrite <- !app_assoc.
    rewrite split_from_piece by assumption.
    change (split_from isSentenceEnd false (cur ++ x)
              (lit ". " ++ join (lit ". ") (y :: r) ++ lit "."))
      with ((cur ++ x)
              :: split_from isSentenceEnd false [" "%char]
                   (join (lit ". ") (y :: r) ++ lit ".")).
    rewrite (IH false [" "%char] y Hrest). reflexivity.
Qed.

Lemma respaced_kept (l : list str) :
  Forall (fun p => (0 <? length (trim p)) = true) l ->
  filter (fun p => 0 <? length (trim p)) (map (cons " "%char) l ++ [[]])
  = map (cons " "%char) l.
Proof.
  induction l as [|y r IH]; intros H; [reflexivity|].
  apply Forall_cons_iff in H as [Hy Hr].
  simpl map. simpl app. simpl filter.
  rewrite nonblank_space, Hy, (IH Hr). reflexivity.
Qed.

Lemma allSentences_limited (answer : str) :
  allSentences (limitAnswer answer) = respace (firstn 3 (allSentences answer)).
Proof.
  destruct (firstn 3 (allSentences answer)) as [|x l] eqn:E.
  - unfold limitAnswer. rewrite E. reflexivity.
  - rewrite (limitAnswer_kept _ E).
    assert (Hok : Forall (fun p => Forall (fun c => isSentenceEnd c = false) p
                                   /\ p <> []) (x :: l)).
    { rewrite <- E. rewrite Forall_forall. intros p Hp.
      apply firstn_In in Hp.
      pose proof (allSentences_pieces answer) as H.
      rewrite Forall_forall in H. auto. }
    assert (Hnb : Forall (fun p => (0 <? length (trim p)) = true) (x :: l)).
    { rewrite <- E. rewrite Forall_forall. intros p Hp.
      apply firstn_In in Hp.
      pose proof (allSentences_nonblank answer) as H.
      rewrite Forall_forall in H. auto. }
    unfold allSentences at 1. unfold split.
    rewrite (split_joined false [] Hok).
    apply Forall_cons_iff in Hnb as [Hx Hl].
    simpl. rewrite Hx. f_equal. apply respaced_kept, Hl.
Qed.

Lemma join_respaced_length (x : str) (l : list str) :
  length (join (lit ". ") (x :: map (cons " "%char) l))
  = length (join (lit ". ") (x :: l)) + length l.
Proof.
  revert x; induction l as [|y r IH]; intros x; [simpl; lia|].
  change (join (lit ". ") (x :: map (cons " "%char) (y :: r)))
    with (x ++ lit ". "
            ++ join (lit ". ") ((" "%char :: y) :: map (cons " "%char) r)).
  change (join (lit ". ") (x :: y :: r))
    with (x ++ lit ". " ++ join (lit ". ") (y :: r)).
  rewrite !length_app, IH.
  assert (H : length (join (lit ". ") ((" "%char :: y) :: r))
              = S (length (join (lit ". ") (y :: r)))).
  { destruct r; simpl; reflexivity. }
  unfold str in *. rewrite H. simpl. lia.
Qed.

Lemma respace_length (l : list str) : length (respace l) = length l.
Proof. destruct l; simpl; [|rewrite length_map]; reflexivity. Qed.

Lemma limitAnswer_limited (answer : str) :
  limitAnswer (limitAnswer answer)
  = join (lit ". ") (respace (firstn 3 (allSentences answer)))
    ++ (if 0 <? length (firstn 3 (allSentences answer)) then lit "."
        else []).
Proof.
  unfold limitAnswer at 1. rewrite allSentences_limited.
  rewrite firstn_all2
    by (rewrite respace_length, length_firstn; apply Nat.le_min_l).
  rewrite respace_length. reflexivity.
Qed.

(** C9, as the code has it: a second pass of the limiter keeps the same
    sentences, at most three, but finds each sentence after the first with
    the space of the separator in front of it, and rejoins them so; the
    limiter reproduces its own result exactly for the answers with at most
    one non-empty sentence. *)
Theorem limitAnswer_twice (answer : str) :
  let kept := firstn 3 (allSentences answer) in
  limitAnswer (limitAnswer answer)
  = join (lit ". ") (respace kept)
    ++ (if 0 <? length kept then lit "." else [])
  /\ (limitAnswer (limitAnswer answer) = limitAnswer answer
      <-> length (allSentences answer) <= 1).
Proof.
  cbv zeta. split; [apply limitAnswer_limited|].
  rewrite limitAnswer_limited. unfold limitAnswer.
  pose proof (length_firstn 3 (allSentences answer)) as Hlen.
  destruct (firstn 3 (allSentences answer)) as [|x k].
  - simpl length in Hlen. split; [lia | reflexivity].
  - change (respace (x :: k)) with (x :: map (cons " "%char) k).
    simpl length in Hlen. split.
    + intros H. apply (f_equal (@length ascii)) in H.
      rewrite !length_app, join_respaced_length in H. lia.
    + intros Hle. destruct k as [|y k]; [reflexivity|].
      simpl length in Hlen. lia.
Qed.

(** C9, as the specification has it, fails on an answer of two sentences:
    the second pass puts one more space after the period. *)
Lemma limitAnswer_not_idempotent :
  limitAnswer (limitAnswer (lit "Roads cost one brick. They connect towns."))
  <> limitAnswer (lit "Roads cost one brick. They connect towns.").
Proof. vm_compute. discriminate. Qed.

Lemma askRulebook_nonempty (env : Env) (net : Transport)
  (question gameId : str) (reply : Reply) :
  askRulebook env net question gameId = Return reply ->
  r_answer reply <> [].
Proof.
  unfold askRulebook. destruct net as [| | st].
  - intros [= <-]. discriminate.
  - match goal with |- context [negb ?c] => destruct c end; simpl;
      intros [= <-]; simpl;
      [apply handler_answer_nonempty | discriminate].
  - destruct (ok st); simpl; [discriminate|].
    intros [= <-]. discriminate.
Qed.

(** C1, as the code has it: the answer that reaches the session is never
    empty, and the text shown after the safety net is empty exactly when
    that answer holds nothing but sentence punctuation and white space: no
    text is put in its place.  When the call of the client rejects, the
    fixed text of the [catch] is shown. *)
Theorem shownAnswer_empty_iff (env : Env) (net : Transport) (query : str) :
  match askRulebook env net query (lit "catan-base") with
  | Return reply =>
      r_answer reply <> []
      /\ (shownAnswer env net query = []
          <-> forallb isFiller (r_answer reply) = true)
  | Throw => shownAnswer env net query = troubleGetting
  end.
Proof.
  unfold shownAnswer.
  destruct (askRulebook env net query (lit "catan-base")) as [reply|] eqn:E;
    [|reflexivity].
  pose proof (askRulebook_nonempty _ _ _ _ E) as Hne.
  split; [exact Hne|].
  unfold assistantText.
  apply nonEmpty_true in Hne. rewrite Hne.
  rewrite limitAnswer_nil. apply allSentences_nil.
Qed.

(** C1, as the specification has it, fails when the model's completion is
    punctuation only: the endpoint passes it on and the safety net leaves
    the empty string. *)
Lemma shownAnswer_can_be_empty :
  shownAnswer (sampleEnv (Responded 200 (Some (completion (lit "...")))))
    Delivered (lit "How do I build a road")
  = [].
Proof. vm_compute. reflexivity. Qed.

End Limiter.

(** ** The voice session *)

Section VoiceSession.

Lemma nth_error_last (A : Type) (l : list A) (x : A) :
  nth_error (l ++ [x]) (length l) = Some x.
Proof.
  rewrite nth_error_app2 by lia. rewrite Nat.sub_diag. reflexivity.
Qed.

(** C8: when [onend] fires on a mounted screen with the button held, it
    requests nothing itself and schedules one restart 100 ms later; when
    that timer fires, [start()] is called if the button is still held, with
    no press in between, and is not called if the button has been released
    meanwhile.  With the button not held, [onend] schedules nothing. *)
Theorem onend_restarts_while_held (s : Session) (r : StartResult) :
  recognition s = true ->
  (isHolding s = true ->
   timers (onend s) = timers s ++ [mkTimer 100 Restart]
   /\ calls (onend s) = calls s
   /\ calls (fires (length (timers s)) r (onend s)) = CallStart :: calls s
   /\ calls (fires (length (timers s)) r (stopListening (onend s)))
      = calls s)
  /\ (isHolding s = false ->
      timers (onend s) = timers s /\ calls (onend s) = calls s)
  /\ (forall (later : Session) (i : nat),
        recognition later = true ->
        nth_error (timers later) i = Some (mkTimer 100 Restart) ->
        calls (fires i r later)
        = if isHolding later then CallStart :: calls later
          else calls later).
Proof.
  intros Hrec. split; [|split].
  - intros Hhold. unfold onend. simpl. rewrite Hhold, Hrec. simpl.
    repeat split.
    + unfold fires. simpl. rewrite nth_error_last. simpl.
      unfold restartCallback. simpl. rewrite Hhold, Hrec. reflexivity.
    + unfold fires, stopListening. simpl. rewrite Hrec. simpl.
      rewrite nth_error_last. reflexivity.
  - intros Hhold. unfold onend. simpl. rewrite Hhold. simpl. auto.
  - intros later i Hlater Hi. unfold fires. rewrite Hi. simpl.
    unfold restartCallback. simpl. rewrite Hlater.
    destruct (isHolding later); reflexivity.
Qed.

(** C7, as the code has it: from a fresh press with the button held, the
    third network error in a row still retries (the count reaches 3, the
    retry 3/3 notice shows, the third retry start is scheduled); it is the
    fourth that clears the hold, resets the count, shows the guidance and
    schedules no retry. *)
Theorem fourth_network_error_is_fatal (s0 : Session) :
  speechSupported s0 = true ->
  recognition s0 = true ->
  recognitionActive s0 = false ->
  timers s0 = [] ->
  let s3 :=
    run s0 [Press Started; OnError network; Fires 0 Started;
            OnError network; Fires 1 Started; OnError network] in
  let s4 := run s3 [Fires 2 Started; OnError network] in
  (isHolding s3 = true /\ retryCount s3 = 3
   /\ error s3 = Some (Retrying 3 maxRetries)
   /\ pendingRetries s3 = 1
   /\ calls s3 = CallStart :: CallStart :: CallStart :: calls s0)
  /\ (fatal s4 /\ retryCount s4 = 0 /\ pendingRetries s4 = 0
      /\ calls s4
         = CallStart :: CallStart :: CallStart :: CallStart :: calls s0).
Proof.
  intros Hsup Hrec Hact Htimers.
  destruct s0 as [li sup er hu tr rec syn ho act n ti ca].
  simpl in Hsup, Hrec, Hact, Htimers. subst.
  vm_compute. repeat split.
Qed.

(** C7, as the specification has it, fails: after the third network error
    the button still counts as held, the notice is the retry notice, and a
    retry start is scheduled. *)
Lemma third_network_error_still_retries :
  let s3 :=
    run mounted [Press Started; OnError network; Fires 0 Started;
                 OnError network; Fires 1 Started; OnError network] in
  isHolding s3 = true
  /\ error s3 = Some (Retrying 3 3)
  /\ pendingRetries s3 = 1
  /\ ~ fatal s3.
Proof.
  vm_compute. repeat split. intros [H _]. discriminate.
Qed.

Lemma onend_restarts_while_held_witness :
  let answered :=
    run mounted
      [Press Started; OnStart; OnResult (lit "what is the robber");
       OnAnswer (Return (mkReply (lit "The robber blocks production.") []))]
  in
  calls (onend answered) = calls answered
  /\ calls (fires 0 Started (onend answered))
     = CallStart :: calls answered.
Proof.
  intros answered.
  destruct (proj1 (onend_restarts_while_held answered Started eq_refl)
              eq_refl)
    as (_ & Hnone & Hstart & _).
  split; [exact Hnone | exact Hstart].
Defined.

Lemma fourth_network_error_is_fatal_witness :
  let s3 :=
    run mounted [Press Started; OnError network; Fires 0 Started;
                 OnError network; Fires 1 Started; OnError network] in
  let s4 := run s3 [Fires 2 Started; OnError network] in
  isHolding s3 = true /\ fatal s4 /\ pendingRetries s4 = 0.
Proof.
  intros s3 s4.
  destruct (fourth_network_error_is_fatal mounted
              eq_refl eq_refl eq_refl eq_refl)
    as [(Hheld & _) (Hfatal & _ & Hnone & _)].
  exact (conj Hheld (conj Hfatal Hnone)).
Defined.

End VoiceSession.

(** * Further properties of the code *)

(** ** More on scoring and retrieval *)

Section RetrievalMore.

Variable question : str.

Local Abbreviation rank := (scoreChunk question).
Local Abbreviation ranked := (ranked question).

Lemma sort_desc_length (l : list ScoredChunk) :
  length (sort_desc l) = length l.
Proof.
  induction l as [|x l IH]; [reflexivity|]. simpl.
  rewrite <- IH. generalize (sort_desc l). intros m.
  induction m as [|z m IHm]; simpl; [reflexivity|].
  destruct (score z <=? score x); simpl; congruence.
Qed.

Lemma filter_map_length (A B : Type) (f : A -> B) (p : B -> bool)
  (l : list A) :
  length (filter p (map f l)) = length (filter (fun x => p (f x)) l).
Proof.
  induction l as [|x l IH]; simpl; [reflexivity|].
  destruct (p (f x)); simpl; congruence.
Qed.

Lemma ranked_In (chunks : list Chunk) (c : Chunk) :
  In c chunks -> 0 < rank c -> In (mkScored c (rank c)) (ranked chunks).
Proof.
  intros Hc Hpos. unfold Retrieval.ranked.
  apply sort_desc_In, filter_In. split.
  - apply in_map_iff. exists c. auto.
  - simpl. now apply Nat.ltb_lt.
Qed.

(** The number of chunks returned is [topN], or the number of chunks that
    score above zero when there are fewer. *)
Theorem retrieveChunks_count (chunks : list Chunk) (topN : nat) :
  length (retrieveChunks question chunks topN)
  = Nat.min topN
      (length (filter (fun c => 0 <? scoreChunk question c) chunks)).
Proof.
  rewrite retrieveChunks_ranked, length_map, length_firstn.
  unfold Retrieval.ranked. rewrite sort_desc_length, filter_map_length.
  reflexivity.
Qed.

(** The first chunk returned scores at least as high as every chunk of the
    input. *)
Theorem retrieveChunks_best_first
  (chunks : list Chunk) (topN : nat) (best : Chunk) (others : list Chunk) :
  retrieveChunks question chunks topN = best :: others ->
  forall c, In c chunks -> scoreChunk question c <= scoreChunk question best.
Proof.
  rewrite retrieveChunks_ranked. intros E c Hc.
  destruct (ranked chunks) as [|i r] eqn:Er;
    [destruct topN; discriminate|].
  destruct topN as [|n]; [discriminate|].
  simpl in E. injection E as Ebest _.
  assert (Hi : In i (ranked chunks)) by (rewrite Er; now left).
  apply ranked_made in Hi as (_ & Hscore & _).
  rewrite <- Ebest, <- Hscore.
  destruct (Nat.eq_dec (rank c) 0) as [-> | Hpos]; [lia|].
  assert (Hin : In (mkScored c (rank c)) (ranked chunks))
    by (apply ranked_In; [exact Hc | lia]).
  pose proof (sort_desc_sorted
                (filter (fun item => 0 <? score item)
                   (map (fun c => mkScored c (rank c)) chunks))) as Hs.
  fold (ranked chunks) in Hs. rewrite Er in Hs, Hin.
  apply StronglySorted_inv in Hs as [_ Hall].
  destruct Hin as [Hsame | Hin]; [rewrite Hsame; simpl; lia|].
  rewrite Forall_forall in Hall. apply (Hall _ Hin).
Qed.

(** A question whose tokens include the empty one scores 2 on every chunk
    at least, whatever the chunk says. *)
Lemma empty_token_bonus (c : Chunk) :
  In [] (split isWhiteSpace (toLowerCase question)) ->
  2 <= scoreChunk question c.
Proof.
  intros Hin. unfold scoreChunk. rewrite fold_bonus.
  assert (H : In [] (filter (fun q => includes (toLowerCase (section c)) q)
                       (split isWhiteSpace (toLowerCase question)))).
  { apply filter_In. split; [exact Hin|].
    destruct (toLowerCase (section c)); reflexivity. }
  destruct (filter _ _) as [|x l]; [contradiction | simpl; lia].
Qed.

(** Asking for fewer chunks gives the start of what asking for more
    gives. *)
Theorem retrieveChunks_prefix (chunks : list Chunk) (n m : nat) :
  n <= m ->
  retrieveChunks question chunks n
  = firstn n (retrieveChunks question chunks m).
Proof.
  intros Hle. rewrite !retrieveChunks_ranked, firstn_map.
  f_equal. rewrite firstn_firstn, Nat.min_l by exact Hle. reflexivity.
Qed.

End RetrievalMore.

Lemma retrieveChunks_best_first_witness :
  scoreChunk (lit "road cost trade") trading
  <= scoreChunk (lit "road cost trade") roads.
Proof.
  apply (@retrieveChunks_best_first (lit "road cost trade")
           [trading; roads] 5 roads [trading]).
  - vm_compute. reflexivity.
  - now left.
Defined.

Lemma retrieveChunks_prefix_witness :
  retrieveChunks (lit "road cost trade") [trading; roads] 1
  = firstn 1 (retrieveChunks (lit "road cost trade") [trading; roads] 5).
Proof.
  apply retrieveChunks_prefix. lia.
Defined.

Section Tokens.

Lemma toLowerChar_space (c : ascii) :
  isWhiteSpace (toLowerChar c) = isWhiteSpace c.
Proof.
  destruct c as [[] [] [] [] [] [] [] []]; reflexivity.
Qed.

Lemma toLowerChar_twice (c : ascii) :
  toLowerChar (toLowerChar c) = toLowerChar c.
Proof.
  destruct c as [[] [] [] [] [] [] [] []]; reflexivity.
Qed.

Lemma toLowerCase_twice (s : str) :
  toLowerCase (toLowerCase s) = toLowerCase s.
Proof.
  unfold toLowerCase. rewrite map_map.
  apply map_ext. intros c. apply toLowerChar_twice.
Qed.

Lemma split_from_last_empty (sep : ascii -> bool) (c : ascii) (s : str) :
  sep c = true ->
  forall inSep cur, In [] (split_from sep inSep cur (s ++ [c])).
Proof.
  intros Hc. induction s as [|d s IH]; intros inSep cur; simpl.
  - rewrite Hc. destruct inSep; simpl; auto.
  - destruct (sep d); [destruct inSep; [|right]|]; apply IH.
Qed.

(** A question that begins or ends with white space has an empty token,
    and the empty token occurs in every section label: every chunk scores 2
    at least, so retrieval from a store that is not empty never comes back
    empty. *)
Theorem padded_question_scores_everywhere
  (question : str) (w : ascii) (rest : str) :
  isWhiteSpace w = true ->
  question = w :: rest \/ question = rest ++ [w] ->
  (forall c, 2 <= scoreChunk question c)
  /\ (forall chunks topN,
        retrieveChunks question chunks topN = [] ->
        chunks = [] \/ topN = 0).
Proof.
  intros Hw Hq.
  assert (Hlow : isWhiteSpace (toLowerChar w) = true)
    by (rewrite toLowerChar_space; exact Hw).
  assert (Hin : In [] (split isWhiteSpace (toLowerCase question))).
  { destruct Hq as [-> | ->]; unfold split, toLowerCase.
    - simpl. rewrite Hlow. now left.
    - rewrite map_app. simpl. apply split_from_last_empty. exact Hlow. }
  assert (Hall : forall c, 2 <= scoreChunk question c)
    by (intros c; apply empty_token_bonus; exact Hin).
  split; [exact Hall|].
  intros chunks topN Hnone.
  destruct chunks as [|c l]; [now left|]. right.
  destruct topN as [|n]; [reflexivity|]. exfalso.
  assert (Hc : In (mkScored c (scoreChunk question c))
                 (ranked question (c :: l))).
  { apply ranked_In; [now left|]. specialize (Hall c). lia. }
  rewrite retrieveChunks_ranked in Hnone.
  destruct (ranked question (c :: l)); [contradiction | discriminate].
Qed.

Lemma padded_question_scores_everywhere_witness :
  2 <= scoreChunk (lit " zzz") trading
  /\ retrieveChunks (lit " zzz") [trading; roads] 5 <> [].
Proof.
  destruct (@padded_question_scores_everywhere (lit " zzz") " "%char
              (lit "zzz") eq_refl (or_introl eq_refl)) as [Hall Hsome].
  split; [apply Hall|].
  intros Hnone. destruct (Hsome _ _ Hnone); discriminate.
Defined.

(** Scoring does not see the case of the question, of the section label or
    of the chunk text. *)
Theorem scoreChunk_ignores_case (question : str) (c : Chunk) :
  scoreChunk (toLowerCase question)
    (mkChunk (Retrieval.id c) (gameId c) (page c)
       (toLowerCase (section c)) (toLowerCase (text c)))
  = scoreChunk question c.
Proof.
  unfold scoreChunk. simpl. rewrite !toLowerCase_twice. reflexivity.
Qed.

End Tokens.

(** ** More on the endpoint *)

Section HandlerMore.

Ltac paths :=
  repeat match goal with
         | |- context [match ?x with _ => _ end] => destruct x eqn:?
         end.

Lemma retrieveChunks_length (question : str) (chunks : list Chunk)
  (n : nat) :
  length (retrieveChunks question chunks n) <= n.
Proof.
  rewrite retrieveChunks_ranked, length_map. apply firstn_le_length.
Qed.

(** The handler asks the model service at most once, and only with a
    credential that is set: the request then carries the credential as a
    bearer token, the fixed system prompt and a budget of 150 tokens, and
    the response has status 200 or 500.  The responses 400, 404 and 405 are
    sent without asking. *)
Theorem handler_asks_at_most_once (env : Env) (req : Request) :
  snd (handler env req) = []
  \/ exists apiKey call,
       OPENAI_API_KEY env = Some apiKey /\ apiKey <> []
       /\ snd (handler env req) = [call]
       /\ authorization call = lit "Bearer " ++ apiKey
       /\ systemPrompt call = theSystemPrompt
       /\ max_tokens call = 150
       /\ (status (fst (handler env req)) = 200
           \/ status (fst (handler env req)) = 500).
Proof.
  unfold handler. paths; simpl; try (left; reflexivity); right.
  all: match goal with
       | H : OPENAI_API_KEY _ = Some ?k |- _ =>
           exists k; eexists; split; [reflexivity|]
       end.
  all: repeat split; try discriminate; auto.
Qed.

(** A response names at most five sources, and names any only with status
    200 and after one request to the model service. *)
Theorem handler_sources_bounded (env : Env) (req : Request) :
  length (sources (fst (handler env req))) <= 5
  /\ (sources (fst (handler env req)) <> [] ->
      status (fst (handler env req)) = 200
      /\ length (snd (handler env req)) = 1).
Proof.
  unfold handler. paths; simpl; split; try lia; try congruence;
    try (intros _; split; reflexivity).
  all: rewrite length_map; apply retrieveChunks_length.
Qed.

Lemma handler_sources_bounded_witness :
  status
    (fst (handler
            (sampleEnv (Responded 200 (Some (completion (lit "Yes.")))))
            (post (lit "catan-base") (lit "How do I build a road"))))
  = 200.
Proof.
  apply (handler_sources_bounded
           (sampleEnv (Responded 200 (Some (completion (lit "Yes.")))))
           (post (lit "catan-base") (lit "How do I build a road"))).
  vm_compute. discriminate.
Defined.




Lemma startsWith_app (t b : str) : startsWith (t ++ b) t = true.
Proof.
  induction t as [|c t IH]; simpl; [destruct b; reflexivity|].
  rewrite Ascii.eqb_refl. exact IH.
Qed.

Lemma includes_here (t b : str) : includes (t ++ b) t = true.
Proof.
  pose proof (startsWith_app t b) as H.
  destruct (t ++ b) as [|d r]; cbn [includes]; rewrite H; reflexivity.
Qed.

Lemma includes_after (a s t : str) :
  includes s t = true -> includes (a ++ s) t = true.
Proof.
  intros H. induction a as [|c a IH]; [exact H|].
  simpl. rewrite IH. apply orb_true_r.
Qed.

Lemma includes_inside (a t b : str) : includes (a ++ t ++ b) t = true.
Proof. apply includes_after, includes_here. Qed.

Lemma includes_join (sep x : str) (l : list str) :
  In x l -> exists a b, join sep l = a ++ x ++ b.
Proof.
  induction l as [|y l IH]; intros Hin; [contradiction|].
  destruct Hin as [-> | Hin].
  - exists []. destruct l as [|z l].
    + exists []. simpl. rewrite app_nil_r. reflexivity.
    + exists (sep ++ join sep (z :: l)). reflexivity.
  - destruct l as [|z l]; [contradiction|].
    destruct (IH Hin) as (a & b & E).
    exists (y ++ sep ++ a), b.
    change (join sep (y :: z :: l)) with (y ++ sep ++ join sep (z :: l)).
    rewrite E, <- !app_assoc. reflexivity.
Qed.

Lemma includes_within (whole a t b : str) :
  whole = a ++ t ++ b -> includes whole t = true.
Proof. intros ->. apply includes_inside. Qed.

Lemma buildRequest_grounded (apiKey question : str)
  (relevantChunks : list Chunk) :
  includes (userPrompt (buildRequest apiKey question relevantChunks))
    question = true
  /\ forall c,
       In c relevantChunks ->
       includes (userPrompt (buildRequest apiKey question relevantChunks))
         (section c) = true
       /\ includes (userPrompt (buildRequest apiKey question relevantChunks))
            (text c) = true.
Proof.
  cbn [userPrompt buildRequest]. split.
  - apply (includes_inside (lit "Question: ")).
  - intros c Hc. apply (in_map excerpt) in Hc.
    apply (includes_join (nl ++ nl ++ lit "---" ++ nl ++ nl)) in Hc
      as (before & after & E).
    unfold buildContext. rewrite E. unfold excerpt. split.
    + apply includes_within
        with (a := lit "Question: " ++ question ++ nl ++ nl
                   ++ lit "Context from rulebook:" ++ nl ++ before
                   ++ lit "[Page " ++ ofNat (page c) ++ lit ", Section: ")
             (b := lit "]" ++ nl ++ text c ++ after).
      repeat rewrite <- app_assoc. reflexivity.
    + apply includes_within
        with (a := lit "Question: " ++ question ++ nl ++ nl
                   ++ lit "Context from rulebook:" ++ nl ++ before
                   ++ lit "[Page " ++ ofNat (page c) ++ lit ", Section: "
                   ++ section c ++ lit "]" ++ nl)
             (b := after).
      repeat rewrite <- app_assoc. reflexivity.
Qed.

(** Every request made to the model service is grounded: its user prompt
    holds the question and, for every chunk retrieved for it, the section
    label and the text of the chunk. *)
Theorem prompt_is_grounded (env : Env) (req : Request)
  (call : ModelRequest) :
  In call (snd (handler env req)) ->
  exists b allChunks,
    body req = Some b /\ chunkFile env = Some allChunks
    /\ includes (userPrompt call) (render (b_question b)) = true
    /\ forall c,
         In c (retrieveChunks (render (b_question b))
                 (chunksFor (b_gameId b) allChunks) 5) ->
         includes (userPrompt call) (section c) = true
         /\ includes (userPrompt call) (text c) = true.
Proof.
  unfold handler. paths; cbn [snd In]; try tauto.
  all: intros [<- | []].
  all: match goal with
       | Hb : body _ = Some ?b, Hf : chunkFile _ = Some ?l |- _ =>
           exists b, l; split; [reflexivity|]; split; [reflexivity|]
       end.
  all: apply buildRequest_grounded.
Qed.

Lemma prompt_is_grounded_witness :
  includes
    (userPrompt
       (buildRequest (lit "sk-test") (lit "How do I build a road")
          [roads; trading]))
    (lit "How do I build a road")
  = true.
Proof.
  destruct (@prompt_is_grounded (sampleEnv FetchRejected)
              (post (lit "catan-base") (lit "How do I build a road"))
              (buildRequest (lit "sk-test") (lit "How do I build a road")
                 [roads; trading]))
    as (b & allChunks & Hb & _ & Hq & _).
  - vm_compute. now left.
  - injection Hb as <-. exact Hq.
Defined.

End HandlerMore.

(** ** Reading the completion *)

Section Completion.

Lemma completionText_first (members first message : list (str * Json))
  (rest : list Json) (content : str) :
  lookup (lit "choices") members = Some (JArr (JObj first :: rest)) ->
  lookup (lit "message") first = Some (JObj message) ->
  lookup (lit "content") message = Some (JStr content) ->
  completionText (JObj members) = Return (Some (trim content)).
Proof.
  intros Hc Hm Ht. unfold completionText, prop, optional.
  rewrite Hc. cbn [index0 hd_error]. rewrite Hm, Ht. reflexivity.
Qed.

(** Of a payload with completions the handler reads the text of the first
    one only, whatever else the payload holds, and trims it; when nothing
    is left after trimming it answers with its could-not-generate text, and
    still names the sources. *)
Theorem first_choice_is_the_answer
  (env : Env) (req : Request) (b : Body) (allChunks : list Chunk)
  (apiKey : str) (st : nat) (members first message : list (str * Json))
  (rest : list Json) (content : str) :
  method req = lit "POST" ->
  body req = Some b ->
  truthy (b_question b) && isString (b_question b) = true ->
  truthy (b_gameId b) = true ->
  chunkFile env = Some allChunks ->
  let relevantChunks :=
    retrieveChunks (render (b_question b))
      (chunksFor (b_gameId b) allChunks) 5 in
  relevantChunks <> [] ->
  OPENAI_API_KEY env = Some apiKey -> apiKey <> [] ->
  modelService env
    (buildRequest apiKey (render (b_question b)) relevantChunks)
  = Responded st (Some (JObj members)) ->
  ok st = true ->
  lookup (lit "choices") members = Some (JArr (JObj first :: rest)) ->
  lookup (lit "message") first = Some (JObj message) ->
  lookup (lit "content") message = Some (JStr content) ->
  fst (handler env req)
  = mkResponse 200
      (if nonEmpty (trim content) then trim content else couldNotGenerate)
      (map (fun c => mkSource (page c) (section c)) relevantChunks).
Proof.
  intros Hpost Hbody Hq Hg Hfile relevantChunks Hrel Hkey Hne Hcall Hok
    Hc Hm Ht.
  rewrite (handler_validated env req Hpost Hbody Hq Hg Hfile).
  fold relevantChunks.
  destruct (length (chunksFor (b_gameId b) allChunks) =? 0) eqn:E.
  { apply length_zero in E. exfalso. apply Hrel.
    unfold relevantChunks. rewrite E. reflexivity. }
  destruct (length relevantChunks =? 0) eqn:E'.
  { apply length_zero in E'. contradiction. }
  rewrite Hkey. destruct apiKey as [|k apiKey]; [contradiction|].
  cbv zeta. rewrite Hcall, Hok. cbn [negb].
  rewrite (@completionText_first members first message rest content
             Hc Hm Ht).
  destruct (trim content); reflexivity.
Qed.

Lemma first_choice_is_the_answer_witness :
  fst (handler (sampleEnv (Responded 200 (Some (JObj blankThenNo))))
         (post (lit "catan-base") (lit "How do I build a road")))
  = mkResponse 200 couldNotGenerate
      [mkSource 7 (lit "Building Roads"); mkSource 9 (lit "Trading")].
Proof.
  rewrite (@first_choice_is_the_answer
             (sampleEnv (Responded 200 (Some (JObj blankThenNo))))
             (post (lit "catan-base") (lit "How do I build a road"))
             (mkBody (Text (lit "catan-base"))
                (Text (lit "How do I build a road")))
             [castling; roads; trading] (lit "sk-test") 200
             blankThenNo blankChoice blankMessage
             [JObj
                [(lit "message", JObj [(lit "content", JStr (lit "No"))])]]
             (lit "   ") eq_refl eq_refl eq_refl eq_refl eq_refl).
  - vm_compute. reflexivity.
  - vm_compute. discriminate.
  - reflexivity.
  - discriminate.
  - reflexivity.
  - reflexivity.
  - vm_compute. reflexivity.
  - vm_compute. reflexivity.
  - vm_compute. reflexivity.
Defined.

End Completion.

(** ** More on the client and the safety net *)

Section ClientMore.

Ltac paths :=
  repeat match goal with
         | |- context [match ?x with _ => _ end] => destruct x eqn:?
         end.

Lemma handler_status (env : Env) (req : Request) :
  status (fst (handler env req)) = 200
  \/ status (fst (handler env req)) = 400
  \/ status (fst (handler env req)) = 404
  \/ status (fst (handler env req)) = 405
  \/ status (fst (handler env req)) = 500.
Proof.
  unfold handler. paths; simpl; tauto.
Qed.

(** The client passes on the answer and the sources of the endpoint only
    when the endpoint replied 200; every other reply, with whatever text
    the endpoint put in it, reaches the screen as the fixed could-not-reach
    text without sources.  An empty question is one such case. *)
Theorem askRulebook_masks_errors (env : Env) (question gameId : str) :
  let res := fst (handler env (post gameId question)) in
  askRulebook env Delivered question gameId
  = Return (if status res =? 200 then mkReply (answer res) (sources res)
            else mkReply couldNotReach [])
  /\ askRulebook env Delivered [] gameId
     = Return (mkReply couldNotReach []).
Proof.
  cbv zeta. split; [|reflexivity].
  unfold askRulebook, post.
  set (res := fst (handler env _)).
  destruct (handler_status env
              (mkRequest (lit "POST")
                 (Some (mkBody (Text gameId) (Text question)))))
    as [E | [E | [E | [E | E]]]];
    fold res in E; rewrite E; reflexivity.
Qed.

Lemma join_chars (P : ascii -> Prop) (sep : str) (l : list str) :
  Forall P sep -> Forall (Forall P) l -> Forall P (join sep l).
Proof.
  intros Hsep. induction l as [|x l IH]; intros Hl; [constructor|].
  apply Forall_cons_iff in Hl as [Hx Hl].
  destruct l as [|y l]; [exact Hx|].
  change (join sep (x :: y :: l)) with (x ++ sep ++ join sep (y :: l)).
  rewrite !Forall_app. auto.
Qed.

(** The text the safety net builds holds no exclamation mark and no
    question mark: every sentence it keeps ends in a period. *)
Theorem limitAnswer_only_periods (answer : str) :
  Forall (fun c => c <> "!"%char /\ c <> "?"%char) (limitAnswer answer).
Proof.
  unfold limitAnswer. apply Forall_app. split.
  - apply join_chars.
    + repeat constructor; discriminate.
    + rewrite Forall_forall. intros p Hp. apply firstn_In in Hp.
      pose proof (allSentences_pieces answer) as H.
      rewrite Forall_forall in H. destruct (H p Hp) as [Hfree _].
      rewrite Forall_forall in *. intros c Hc. specialize (Hfree c Hc).
      split; intros ->; discriminate.
  - destruct (0 <? length (firstn 3 (allSentences answer)));
      repeat constructor; discriminate.
Qed.

(** The text the safety net builds has three sentences at most: as many as
    the answer has, up to three. *)
Theorem limitAnswer_sentence_count (answer : str) :
  length (allSentences (limitAnswer answer))
  = Nat.min 3 (length (allSentences answer)).
Proof.
  rewrite allSentences_limited, respace_length. apply length_firstn.
Qed.

End ClientMore.

(** ** The local rules and the search screen *)

Section LocalRules.

Variable rules : list Rules.Rule.
Variable query : str.

Local Abbreviation lowerQuery := (toLowerCase query).
Local Abbreviation conf :=
  (fun r => Rules.twiceConfidence (Rules.rate (toLowerCase query) r)).

Lemma insertMatch_In (x y : Rules.Match) (l : list Rules.Match) :
  In y (Rules.insertMatch x l) <-> y = x \/ In y l.
Proof.
  induction l as [|z l IH]; simpl.
  - intuition congruence.
  - destruct (Rules.twiceConfidence z <=? Rules.twiceConfidence x); simpl;
      rewrite ?IH; intuition congruence.
Qed.

Lemma sortMatches_In (y : Rules.Match) (l : list Rules.Match) :
  In y (Rules.sortMatches l) <-> In y l.
Proof.
  induction l as [|x l IH]; simpl; [tauto|].
  rewrite insertMatch_In, IH. intuition congruence.
Qed.

(** The head of the sorted list is the first of the input among those of
    the highest confidence. *)
Lemma sortMatches_head (l : list Rules.Match) (m : Rules.Match)
  (r : list Rules.Match) :
  Rules.sortMatches l = m :: r ->
  (forall y, In y l -> Rules.twiceConfidence y <= Rules.twiceConfidence m)
  /\ exists before after,
       l = before ++ m :: after
       /\ forall y, In y before ->
                    Rules.twiceConfidence y < Rules.twiceConfidence m.
Proof.
  revert m r. induction l as [|x l IH]; intros m r E; [discriminate|].
  simpl in E.
  destruct (Rules.sortMatches l) as [|m' r'] eqn:Es.
  - simpl in E. injection E as <- <-.
    assert (l = []) as ->.
    { destruct l as [|z l]; [reflexivity|].
      assert (H : In z (Rules.sortMatches (z :: l)))
        by (apply sortMatches_In; now left).
      rewrite Es in H. contradiction. }
    split.
    + intros y [<- | []]. lia.
    + exists [], []. split; [reflexivity | intros y []].
  - destruct (IH m' r' eq_refl) as (Hmax & before & after & Hl & Hlow).
    simpl in E.
    destruct (Rules.twiceConfidence m' <=? Rules.twiceConfidence x) eqn:C.
    + apply Nat.leb_le in C. injection E as <- _. split.
      * intros y [<- | Hy]; [lia|]. specialize (Hmax y Hy). lia.
      * exists [], l. split; [reflexivity | intros y []].
    + apply Nat.leb_gt in C. injection E as <- _. split.
      * intros y [<- | Hy]; [lia | apply Hmax, Hy].
      * exists (x :: before), after. split; [rewrite Hl; reflexivity|].
        intros y [<- | Hy]; [exact C | apply Hlow, Hy].
Qed.

Lemma rated_In (m : Rules.Match) :
  In m (filter (fun m => 0 <? Rules.twiceConfidence m)
          (map (Rules.rate lowerQuery) rules))
  <-> exists r, In r rules /\ m = Rules.rate lowerQuery r /\ 0 < conf r.
Proof.
  rewrite filter_In, in_map_iff, Nat.ltb_lt. split.
  - intros [(r & <- & Hr) Hpos]. exists r. auto.
  - intros (r & Hr & -> & Hpos). split; [exists r; auto | exact Hpos].
Qed.

Lemma findRuleIn_none :
  Rules.findRuleIn rules query = None
  <-> forall r, In r rules -> conf r = 0.
Proof.
  unfold Rules.findRuleIn.
  destruct (Rules.sortMatches _) as [|m l] eqn:E.
  - split; [|reflexivity]. intros _ r Hr.
    destruct (Nat.eq_dec (conf r) 0) as [H | H]; [exact H|].
    assert (Hin : In (Rules.rate lowerQuery r) (Rules.sortMatches
                    (filter (fun m => 0 <? Rules.twiceConfidence m)
                       (map (Rules.rate lowerQuery) rules)))).
    { apply sortMatches_In, rated_In. exists r. repeat split; auto. lia. }
    rewrite E in Hin. contradiction.
  - split; [discriminate|]. intros Hzero.
    assert (Hin : In m (Rules.sortMatches
                    (filter (fun m => 0 <? Rules.twiceConfidence m)
                       (map (Rules.rate lowerQuery) rules))))
      by (rewrite E; now left).
    apply sortMatches_In, rated_In in Hin as (r & Hr & _ & Hpos).
    rewrite (Hzero r Hr) in Hpos. lia.
Qed.

Lemma findRuleIn_some (m : Rules.Match) :
  Rules.findRuleIn rules query = Some m ->
  In (Rules.rule m) rules
  /\ m = Rules.rate lowerQuery (Rules.rule m)
  /\ 0 < Rules.twiceConfidence m
  /\ (forall r, In r rules -> conf r <= Rules.twiceConfidence m)
  /\ exists before after,
       filter (fun r => 0 <? conf r) rules
       = before ++ Rules.rule m :: after
       /\ forall r, In r before -> conf r < Rules.twiceConfidence m.
Proof.
  unfold Rules.findRuleIn.
  destruct (Rules.sortMatches _) as [|m' l] eqn:E; [discriminate|].
  intros [= ->].
  assert (Hin : In m (Rules.sortMatches
                    (filter (fun m => 0 <? Rules.twiceConfidence m)
                       (map (Rules.rate lowerQuery) rules))))
    by (rewrite E; now left).
  apply sortMatches_In, rated_In in Hin as (r0 & Hr0 & Hm & Hpos).
  destruct (sortMatches_head _ E) as (Hmax & before & after & Hl & Hlow).
  split; [rewrite Hm; exact Hr0|].
  split; [rewrite Hm; reflexivity|].
  split; [rewrite Hm; exact Hpos|].
  split.
  - intros r Hr.
    destruct (Nat.eq_dec (conf r) 0) as [Hz | Hnz]; [rewrite Hz; lia|].
    apply (Hmax (Rules.rate lowerQuery r)).
    apply rated_In. exists r. repeat split; auto. lia.
  - exists (map Rules.rule before), (map Rules.rule after). split.
    + assert (Hmap : map Rules.rule
                       (filter (fun m => 0 <? Rules.twiceConfidence m)
                          (map (Rules.rate lowerQuery) rules))
                     = filter (fun r => 0 <? conf r) rules).
      { clear. induction rules as [|r l IH]; simpl; [reflexivity|].
        destruct (0 <? _); simpl; rewrite IH; reflexivity. }
      rewrite <- Hmap, Hl, map_app. reflexivity.
    + intros r Hr. apply in_map_iff in Hr as (y & <- & Hy).
      assert (Hy' : In y (filter (fun m => 0 <? Rules.twiceConfidence m)
                            (map (Rules.rate lowerQuery) rules)))
        by (rewrite Hl; apply in_or_app; now left).
      apply rated_In in Hy' as (r' & _ & -> & _).
      simpl. apply (Hlow _ Hy).
Qed.

Lemma conf_zero (r : Rules.Rule) :
  conf r = 0
  <-> (forall kw, In kw (Rules.keywords r) ->
                  includes lowerQuery (toLowerCase kw) = false)
      /\ includes lowerQuery (toLowerCase (Rules.title r)) = false.
Proof.
  simpl. unfold Rules.keywordMatches, Rules.titleMatch.
  destruct (includes lowerQuery (toLowerCase (Rules.title r))).
  - split; [lia | intros [_ H]; discriminate].
  - rewrite Nat.add_0_r. split.
    + intros H. split; [|reflexivity]. intros kw Hkw.
      destruct (includes lowerQuery (toLowerCase kw)) eqn:E; [|reflexivity].
      assert (Hin : In kw (filter (fun keyword =>
                                     includes lowerQuery
                                       (toLowerCase keyword))
                             (Rules.keywords r)))
        by (apply filter_In; auto).
      destruct (filter _ (Rules.keywords r)); [contradiction | discriminate].
    + intros [H _]. rewrite filter_none; [reflexivity | exact H].
Qed.

Lemma searchIn_fallback :
  nonEmpty (trim query) = true ->
  Rules.findRuleIn rules query = None ->
  Rules.searchIn rules query
  = filter (fun r => includes (toLowerCase (Rules.title r)) lowerQuery)
      rules.
Proof.
  intros Hq Hnone. unfold Rules.searchIn. rewrite Hq, Hnone. simpl.
  pose proof (proj1 findRuleIn_none Hnone) as Hzero.
  clear Hnone. induction rules as [|r l IH]; [reflexivity|].
  simpl.
  assert (Hk : existsb (fun kw => includes lowerQuery (toLowerCase kw))
                 (Rules.keywords r) = false).
  { destruct (existsb _ (Rules.keywords r)) eqn:E; [|reflexivity].
    apply existsb_exists in E as (kw & Hkw & Hinc).
    pose proof (proj1 (conf_zero r) (Hzero r (or_introl eq_refl)))
      as [Hno _].
    rewrite (Hno kw Hkw) in Hinc. discriminate. }
  rewrite Hk. simpl.
  rewrite IH by (intros r' Hr'; apply Hzero; now right).
  reflexivity.
Qed.

End LocalRules.

Section RulesScreens.

Lemma filter_split (A : Type) (p : A -> bool) (l : list A) :
  forall (b : list A) (x : A) (a : list A),
    filter p l = b ++ x :: a ->
    exists b' a', l = b' ++ x :: a' /\ filter p b' = b.
Proof.
  induction l as [|y l IH]; intros b x a E; simpl in E.
  - destruct b; discriminate.
  - destruct (p y) eqn:Hy.
    + destruct b as [|z b]; simpl in E; injection E as -> E.
      * exists [], l. split; reflexivity.
      * destruct (IH _ _ _ E) as (b' & a' & -> & Hb).
        exists (z :: b'), a'. split; [reflexivity|].
        simpl. rewrite Hy, Hb. reflexivity.
    + destruct (IH _ _ _ E) as (b' & a' & -> & Hb).
      exists (y :: b'), a'. split; [reflexivity|].
      simpl. rewrite Hy. exact Hb.
Qed.

(** [findRule] finds no rule exactly when the lowercased query contains
    neither a keyword nor the title of any rule. *)
Theorem findRule_none_iff (query : str) :
  Rules.findRule query = None
  <-> forall r,
        In r Rules.catanRules ->
        (forall kw, In kw (Rules.keywords r) ->
                    includes (toLowerCase query) (toLowerCase kw) = false)
        /\ includes (toLowerCase query) (toLowerCase (Rules.title r))
           = false.
Proof.
  unfold Rules.findRule. rewrite findRuleIn_none.
  split; intros H r Hr; apply conf_zero, H, Hr.
Qed.

(** The rule [findRule] returns is one of the rules, rated above zero and
    at least as high as every rule, and every rule listed before it is
    rated strictly lower: among the best it is the first. *)
Theorem findRule_best_and_first (query : str) (m : Rules.Match) :
  Rules.findRule query = Some m ->
  m = Rules.rate (toLowerCase query) (Rules.rule m)
  /\ 0 < Rules.twiceConfidence m
  /\ (forall r, In r Rules.catanRules ->
                Rules.twiceConfidence (Rules.rate (toLowerCase query) r)
                <= Rules.twiceConfidence m)
  /\ exists before after,
       Rules.catanRules = before ++ Rules.rule m :: after
       /\ forall r, In r before ->
                    Rules.twiceConfidence
                      (Rules.rate (toLowerCase query) r)
                    < Rules.twiceConfidence m.
Proof.
  intros E. apply findRuleIn_some in E
    as (_ & Hm & Hpos & Hmax & before & after & Hsplit & Hlow).
  repeat (split; [assumption|]).
  apply filter_split in Hsplit as (b' & a' & Hl & Hb).
  exists b', a'. split; [exact Hl|].
  intros r Hr.
  destruct (0 <? Rules.twiceConfidence (Rules.rate (toLowerCase query) r))
    eqn:Hp.
  - apply Hlow. rewrite <- Hb. apply filter_In. auto.
  - apply Nat.ltb_ge in Hp. lia.
Qed.

Lemma findRule_best_and_first_witness :
  exists m,
    Rules.findRule (lit "Can I trade at a port") = Some m
    /\ Rules.id (Rules.rule m) = 3
    /\ 0 < Rules.twiceConfidence m.
Proof.
  eexists. split; [vm_compute; reflexivity|].
  split; [reflexivity|].
  refine (proj1 (proj2 (@findRule_best_and_first
                          (lit "Can I trade at a port") _ _))).
  vm_compute. reflexivity.
Defined.

(** When [findRule] finds nothing for a query that is not blank, the
    search screen lists exactly the rules whose lowercased title contains
    the lowercased query: the keyword test of the fallback never adds a
    rule. *)
Theorem handleSearch_fallback_is_by_title (query : str) :
  nonEmpty (trim query) = true ->
  Rules.findRule query = None ->
  Rules.handleSearch query
  = filter
      (fun r => includes (toLowerCase (Rules.title r)) (toLowerCase query))
      Rules.catanRules.
Proof.
  intros Hq Hnone. apply searchIn_fallback; assumption.
Qed.

Lemma handleSearch_fallback_is_by_title_witness :
  map Rules.id (Rules.handleSearch (lit "robb")) = [5].
Proof.
  rewrite (@handleSearch_fallback_is_by_title (lit "robb"));
    vm_compute; reflexivity.
Defined.

Lemma searchIn_sound (rules : list Rules.Rule) (query : str)
  (r : Rules.Rule) :
  In r (Rules.searchIn rules query) -> In r rules.
Proof.
  unfold Rules.searchIn.
  destruct (nonEmpty (trim query)); cbn [negb]; [|intros []].
  destruct (Rules.findRuleIn rules query) as [m|] eqn:E.
  - intros [<- | []]. now apply findRuleIn_some in E as (Hin & _).
  - intros Hr. now apply filter_In in Hr.
Qed.

(** What the search screen lists is always made of rules of the list: none
    for a blank query, the one [findRule] finds when it finds one. *)
Theorem handleSearch_results (query : str) :
  (forall r, In r (Rules.handleSearch query) -> In r Rules.catanRules)
  /\ (nonEmpty (trim query) = false -> Rules.handleSearch query = [])
  /\ (forall m, nonEmpty (trim query) = true ->
                Rules.findRule query = Some m ->
                Rules.handleSearch query = [Rules.rule m]).
Proof.
  split; [|split].
  - intros r. apply searchIn_sound.
  - unfold Rules.handleSearch, Rules.searchIn. intros ->. reflexivity.
  - unfold Rules.handleSearch, Rules.searchIn, Rules.findRule.
    intros m -> ->. reflexivity.
Qed.

(** The session screen that answers from the local rules shows, for every
    query, its no-match text or what the safety net of the later screen
    makes of a rule's answer: never the empty text. *)
Theorem localAnswer_cases (query : str) :
  Rules.localAnswer query <> []
  /\ (Rules.localAnswer query = Rules.noMatchText
      \/ exists r, In r Rules.catanRules
                   /\ Rules.localAnswer query
                      = limitAnswer (Rules.answer r)).
Proof.
  unfold Rules.localAnswer.
  destruct (Rules.findRule query) as [m|] eqn:E.
  - split.
    + intros H. apply app_eq_nil in H as [_ H]. discriminate.
    + right. exists (Rules.rule m).
      apply findRuleIn_some in E as (Hin & _). split; [exact Hin|].
      unfold limitAnswer.
      assert (Hall : forall r, In r Rules.catanRules ->
                (0 <? length (firstn 3 (allSentences (Rules.answer r))))
                = true).
      { intros r Hr.
        repeat (destruct Hr as [<- | Hr]; [vm_compute; reflexivity|]).
        contradiction. }
      rewrite (Hall _ Hin). reflexivity.
  - split; [discriminate | now left].
Qed.

End RulesScreens.

(** ** More on the voice session *)

Section VoiceMore.

Ltac handlers :=
  unfold step, startListening, stopListening, onstart, onend, onerror,
    onresult, onanswer, handleHushToggle, cleanup, fires, restartCallback,
    retryCallback, clearCallback, report, setTimeout.

Ltac cases :=
  repeat match goal with
         | |- context [if ?c then _ else _] => destruct c eqn:?
         | |- context [match ?x with _ => _ end] => destruct x eqn:?
         end.

Ltac facts :=
  repeat match goal with
         | H : (_ && _) = true |- _ =>
             apply andb_true_iff in H; destruct H
         | H : (_ <? _) = true |- _ => apply Nat.ltb_lt in H
         | H : (_ <? _) = false |- _ => apply Nat.ltb_ge in H
         | H : (_ <=? _) = true |- _ => apply Nat.leb_le in H
         end.

Lemma run_app (s : Session) (a b : list Event) :
  run s (a ++ b) = run (run s a) b.
Proof. unfold run. apply fold_left_app. Qed.

Lemma run_cons (s : Session) (e : Event) (l : list Event) :
  run s (e :: l) = run (step s e) l.
Proof. reflexivity. Qed.

Lemma step_retryCount (s : Session) (e : Event) :
  retryCount s <= maxRetries -> retryCount (step s e) <= maxRetries.
Proof.
  intros H. destruct e; handlers; cases; facts; simpl in *;
    unfold maxRetries in *; lia.
Qed.

(** Whatever happens to a session, its retry count stays within the
    maximum of three. *)
Theorem retryCount_bounded (s : Session) (events : list Event) :
  retryCount s <= maxRetries ->
  retryCount (run s events) <= maxRetries.
Proof.
  revert s. induction events as [|e l IH]; intros s H; [exact H|].
  rewrite run_cons. apply IH, step_retryCount, H.
Qed.

Lemma retryCount_bounded_witness :
  retryCount
    (run mounted
       [Press Started; OnError network; OnError network; OnError network;
        OnError network; Press Started; OnError network])
  <= maxRetries.
Proof.
  apply retryCount_bounded. unfold maxRetries. simpl. lia.
Defined.

Lemma step_transcript (s : Session) (e : Event) :
  transcript (step s e) = transcript s ++ entriesOf [e].
Proof.
  destruct e; handlers; cases; simpl; rewrite ?app_nil_r; reflexivity.
Qed.

(** The transcript only grows, and only by what results and answers put
    there, in the order in which they come: one user entry for each result
    and one assistant entry for each answer. *)
Theorem transcript_is_a_journal (s : Session) (events : list Event) :
  transcript (run s events) = transcript s ++ entriesOf events.
Proof.
  revert s. induction events as [|e l IH]; intros s.
  - simpl. rewrite app_nil_r. reflexivity.
  - rewrite run_cons, IH, step_transcript, <- app_assoc.
    f_equal. destruct e; reflexivity.
Qed.

Lemma step_unmounted (s : Session) (e : Event) :
  recognition s = false ->
  recognition (step s e) = false /\ startCalls (step s e) = startCalls s.
Proof.
  intros H. unfold startCalls.
  destruct e; handlers; rewrite ?H;
    rewrite ?andb_false_r, ?orb_true_r; cbn [negb andb orb];
    cases; simpl in *; rewrite ?H in *; simpl in *;
    try discriminate; auto;
    rewrite ?andb_false_r in *; simpl in *; discriminate.
Qed.

(** Once the cleanup has run, nothing calls [start()] again: no press and
    no timer that was still scheduled. *)
Theorem no_start_after_cleanup (s : Session) (events : list Event) :
  startCalls (run (cleanup s) events) = startCalls s.
Proof.
  assert (Hgen : forall t, recognition t = false ->
                           startCalls (run t events) = startCalls t).
  { induction events as [|e l IH]; intros t Ht; [reflexivity|].
    rewrite run_cons. destruct (@step_unmounted t e Ht) as [Hrec Hcalls].
    rewrite (IH _ Hrec). exact Hcalls. }
  rewrite Hgen.
  - unfold cleanup, startCalls. cases; reflexivity.
  - unfold cleanup. cases; simpl; auto.
    all: destruct (recognition s); auto; discriminate.
Qed.

Lemma fires_released (s : Session) (i : nat) (r : StartResult) :
  isHolding s = false ->
  isHolding (fires i r s) = false /\ calls (fires i r s) = calls s.
Proof.
  intros H. unfold fires.
  destruct (nth_error (timers s) i) as [t|]; [|auto].
  destruct (task t); unfold restartCallback, retryCallback, clearCallback;
    simpl.
  - rewrite H. simpl. auto.
  - rewrite H. simpl. auto.
  - destruct (retryCount s <? maxRetries); simpl; auto.
Qed.

(** A release cancels no timer: what is scheduled stays scheduled.  While
    the button stays released the callbacks are inert: whichever of them
    fire, in whatever order, none calls anything.  A press before a restart
    that was scheduled earlier fires lets that restart call [start()]
    again. *)
Theorem release_mutes_timers_until_press (s : Session)
  (firings : list (nat * StartResult)) :
  timers (stopListening s) = timers s
  /\ calls (run (stopListening s)
              (map (fun f => Fires (fst f) (snd f)) firings))
     = calls (stopListening s)
  /\ (forall i r,
        speechSupported s = true -> recognition s = true ->
        nth_error (timers s) i = Some (mkTimer 100 Restart) ->
        calls (fires i r (startListening Started (stopListening s)))
        = CallStart :: calls (startListening Started (stopListening s))).
Proof.
  split; [|split].
  - unfold stopListening. cases; reflexivity.
  - assert (Hgen : forall t, isHolding t = false ->
              calls (run t (map (fun f => Fires (fst f) (snd f)) firings))
              = calls t).
    { induction firings as [|[i r] l IH]; intros t Ht; [reflexivity|].
      simpl map. rewrite run_cons. simpl step.
      destruct (@fires_released t i r Ht) as [Hh Hc].
      rewrite (IH _ Hh). exact Hc. }
    apply Hgen. unfold stopListening. cases; reflexivity.
  - intros i r Hsup Hrec Hi.
    destruct s as [li sup er hu tr rec syn ho act n ti ca].
    simpl in Hsup, Hrec, Hi. subst.
    unfold fires, startListening, stopListening.
    destruct act; simpl; rewrite Hi; reflexivity.
Qed.

Lemma release_mutes_timers_until_press_witness :
  let s := run mounted [Press Started; OnStart; OnEnd] in
  calls (fires 0 Started (startListening Started (stopListening s)))
  = [CallStart; CallStart; CallStart].
Proof.
  intros s.
  apply (proj2 (proj2 (release_mutes_timers_until_press s [])) 0 Started);
    reflexivity.
Defined.

(** Releasing twice is releasing once: the second call, as of the mouse
    leaving the button after it went up, changes nothing and calls
    nothing. *)
Theorem stopListening_idempotent (s : Session) :
  stopListening (stopListening s) = stopListening s.
Proof.
  destruct s as [li sup er hu tr rec syn ho act n ti ca].
  destruct rec, act; reflexivity.
Qed.

(** A network error that ends the retries shows the guidance, and the
    timer that an earlier retry left to clear its notice then wipes the
    guidance off: the count is back at zero when it fires. *)
Theorem stale_timer_clears_guidance (s : Session) (i : nat)
  (r : StartResult) :
  isHolding s = false \/ maxRetries <= retryCount s ->
  nth_error (timers s) i = Some (mkTimer 2000 ClearNotice) ->
  error (onerror (lit "network") s) = Some CannotConnectGuidance
  /\ error (fires i r (onerror (lit "network") s)) = None.
Proof.
  intros Hend Hi.
  assert (Hcond : isHolding s && (retryCount s <? maxRetries) = false).
  { destruct Hend as [-> | Hle]; [reflexivity|].
    apply Nat.ltb_ge in Hle. rewrite Hle. apply andb_false_r. }
  unfold onerror, fires. cbn [eqb_str lit list_ascii_of_string].
  simpl. rewrite Hcond. simpl. rewrite Hi. auto.
Qed.

Lemma stale_timer_clears_guidance_witness :
  let s :=
    run mounted
      [Press Started; OnError network; Fires 0 Started; OnError network;
       Fires 1 Started; OnError network; Fires 2 Started] in
  error (onerror (lit "network") s) = Some CannotConnectGuidance
  /\ error (fires 0 Started (onerror (lit "network") s)) = None.
Proof.
  intros s.
  apply (@stale_timer_clears_guidance s 0 Started).
  - right. vm_compute. lia.
  - vm_compute. reflexivity.
Defined.

(** Muting silences the answers to come and cuts the speech in course:
    an answer that arrives after the toggle is written to the transcript
    and not spoken.  Toggling back, the next answer is spoken with the text
    that is shown. *)
Theorem mute_silences_answers (s : Session) (response : Outcome Reply) :
  speechSynthesis s = true ->
  (isHushed s = false ->
   calls (onanswer response (handleHushToggle s)) = CancelSpeech :: calls s)
  /\ (isHushed s = true ->
      calls (onanswer response (handleHushToggle s))
      = Speak (assistantText response) :: CancelSpeech :: calls s)
  /\ transcript (onanswer response (handleHushToggle s))
     = transcript s ++ [mkEntry assistant (assistantText response)].
Proof.
  intros Hsyn. unfold onanswer, handleHushToggle. simpl.
  rewrite Hsyn. simpl. rewrite Hsyn.
  split; [intros ->; reflexivity|].
  split; [intros ->; reflexivity|].
  destruct (isHushed s); reflexivity.
Qed.

Lemma mute_silences_answers_witness :
  calls (onanswer (Return (mkReply (lit "Yes.") []))
           (handleHushToggle mounted))
  = [CancelSpeech].
Proof.
  apply (proj1 (@mute_silences_answers mounted
                  (Return (mkReply (lit "Yes.") [])) eq_refl)).
  reflexivity.
Defined.

Lemma pendingRetries_app (s : Session) (t : list Timer) :
  pendingRetries (setTimers (timers s ++ t) s)
  = pendingRetries s
    + length (filter (fun t => match task t with
                               | Retry => true
                               | _ => false
                               end) t).
Proof.
  unfold pendingRetries. simpl. rewrite filter_app, length_app.
  reflexivity.
Qed.

Lemma confirmed_failure (s : Session) :
  isHolding s = true ->
  let s' := onerror (lit "network") (onstart s) in
  isHolding s' = true /\ retryCount s' = 1
  /\ error s' = Some (Retrying 1 maxRetries)
  /\ pendingRetries s' = S (pendingRetries s)
  /\ calls s' = calls s.
Proof.
  intros H. unfold onerror, onstart, report, setTimeout, pendingRetries.
  cbn [eqb_str lit list_ascii_of_string]. simpl. rewrite H. simpl.
  rewrite <- !app_assoc, filter_app, length_app. simpl.
  repeat split; try assumption; lia.
Qed.

(** The retries are counted between two confirmed starts only: when the
    engine confirms every start before it reports the network error, the
    count never passes 1, every error schedules one more retry, and the
    session never gives up, however long this goes on. *)
Theorem confirmed_starts_renew_retries (n : nat) (s : Session) :
  isHolding s = true ->
  let s' := run s (confirmedFailures n) in
  isHolding s' = true /\ retryCount s' <= Nat.max 1 (retryCount s)
  /\ pendingRetries s' = pendingRetries s + n
  /\ ~ fatal s'.
Proof.
  revert s. induction n as [|n IH]; intros s H; cbv zeta.
  - unfold run. cbn [confirmedFailures fold_left].
    split; [exact H|]. split; [lia|]. split; [lia|].
    intros [Hf _]. congruence.
  - change (confirmedFailures (S n))
      with (OnStart :: OnError (lit "network") :: confirmedFailures n).
    rewrite !run_cons. cbn [step].
    destruct (confirmed_failure s H) as (Hh & Hc & _ & Hp & _).
    destruct (IH _ Hh) as (Hh' & Hc' & Hp' & Hf').
    split; [exact Hh'|]. split; [lia|]. split; [lia | exact Hf'].
Qed.

Lemma confirmed_starts_renew_retries_witness :
  pendingRetries
    (run (startListening Started mounted) (confirmedFailures 10))
  = 10.
Proof.
  apply (@confirmed_starts_renew_retries 10
           (startListening Started mounted) eq_refl).
Defined.

Lemma step_listening (s : Session) (e : Event) :
  (recognitionActive s = true -> listening s = true) ->
  recognitionActive (step s e) = true -> listening (step s e) = true.
Proof.
  intros H. destruct e; handlers; cases; simpl; auto; discriminate.
Qed.

(** Whenever the session holds the recogniser to be active, the screen
    shows that it is listening. *)
Theorem active_shows_listening (s : Session) (events : list Event) :
  (recognitionActive s = true -> listening s = true) ->
  recognitionActive (run s events) = true ->
  listening (run s events) = true.
Proof.
  revert s. induction events as [|e l IH]; intros s H; [exact H|].
  rewrite run_cons. apply IH. apply step_listening, H.
Qed.

Lemma active_shows_listening_witness :
  listening
    (run mounted [Press (StartThrows (lit "InvalidStateError")
                           (lit "recognition has already started"))])
  = true.
Proof.
  apply active_shows_listening; [discriminate | reflexivity].
Defined.

(** A press finds the recogniser running, by the session's own flag or by
    the exception of [start()] that says so: either way it is no error, the
    button counts as held, the retry count starts anew, and with the flag
    set [start()] is not even called. *)
Theorem press_while_running (s : Session) (r : StartResult) :
  speechSupported s = true ->
  recognition s = true ->
  (recognitionActive s = true ->
   calls (startListening r s) = calls s
   /\ isHolding (startListening r s) = true
   /\ error (startListening r s) = None
   /\ retryCount (startListening r s) = 0)
  /\ (forall name message,
        recognitionActive s = false ->
        r = StartThrows name message ->
        includes message (lit "started") = true ->
        isHolding (startListening r s) = true
        /\ error (startListening r s) = None
        /\ recognitionActive (startListening r s) = true
        /\ listening (startListening r s) = true).
Proof.
  intros Hsup Hrec. unfold startListening. rewrite Hsup, Hrec. simpl.
  split.
  - intros ->. simpl. auto.
  - intros name message -> -> Hinc. simpl.
    assert (Hne : nonEmpty message = true).
    { destruct message; [discriminate | reflexivity]. }
    rewrite Hne, Hinc, orb_true_r. simpl. auto.
Qed.

Lemma press_while_running_witness :
  calls (startListening Started (onstart (startListening Started mounted)))
  = [CallStart].
Proof.
  apply (proj1 (@press_while_running
                  (onstart (startListening Started mounted)) Started
                  eq_refl eq_refl)).
  reflexivity.
Defined.

(** Silence is no reason to stop: a [no-speech] error leaves the button
    held and shows nothing, so the [onend] that follows it schedules the
    restart, which calls [start()] when it fires. *)
Theorem no_speech_keeps_listening (s : Session) (r : StartResult) :
  isHolding s = true ->
  recognition s = true ->
  let silent := onend (onerror (lit "no-speech") s) in
  error silent = None
  /\ isHolding silent = true
  /\ retryCount silent = retryCount s
  /\ timers silent = timers s ++ [mkTimer 100 Restart]
  /\ calls (fires (length (timers s)) r silent) = CallStart :: calls s.
Proof.
  intros Hh Hrec. unfold onend, onerror, report, setTimeout.
  cbn [eqb_str lit list_ascii_of_string]. simpl.
  rewrite Hh, Hrec. simpl.
  repeat split; [exact Hh|].
  unfold fires. simpl. rewrite nth_error_last. simpl.
  unfold restartCallback. simpl. rewrite Hh, Hrec. reflexivity.
Qed.

Lemma no_speech_keeps_listening_witness :
  calls
    (fires 0 Started
       (onend (onerror (lit "no-speech") (startListening Started mounted))))
  = [CallStart; CallStart].
Proof.
  apply (@no_speech_keeps_listening (startListening Started mounted)
           Started eq_refl eq_refl).
Defined.

(** Errors other than [network] schedule nothing and call nothing.
    [no-speech] and [aborted] leave the hold as it is and clear the notice;
    every other kind lets go of the button and shows a notice. *)
Theorem other_errors (s : Session) (eventError : str) :
  eventError <> lit "network" ->
  timers (onerror eventError s) = timers s
  /\ calls (onerror eventError s) = calls s
  /\ (eventError = lit "no-speech" \/ eventError = lit "aborted" ->
      isHolding (onerror eventError s) = isHolding s
      /\ error (onerror eventError s) = None)
  /\ (eventError <> lit "no-speech" -> eventError <> lit "aborted" ->
      isHolding (onerror eventError s) = false
      /\ error (onerror eventError s) <> None).
Proof.
  intros Hnet. unfold onerror, report.
  assert (En : eqb_str eventError (lit "network") = false).
  { destruct (eqb_str eventError (lit "network")) eqn:E; [|reflexivity].
    apply eqb_str_eq in E. contradiction. }
  rewrite En.
  destruct (eqb_str eventError (lit "no-speech")) eqn:E1.
  { apply eqb_str_eq in E1. subst. simpl.
    split; [reflexivity|]. split; [reflexivity|].
    split; [intros _; split; reflexivity|].
    intros H. exfalso. apply H. reflexivity. }
  destruct (eqb_str eventError (lit "audio-capture")) eqn:E2.
  { apply eqb_str_eq in E2. subst. simpl.
    split; [reflexivity|]. split; [reflexivity|].
    split; [intros [H | H]; vm_compute in H; discriminate|].
    intros _ _. split; [reflexivity | discriminate]. }
  destruct (eqb_str eventError (lit "not-allowed")) eqn:E3.
  { apply eqb_str_eq in E3. subst. simpl.
    split; [reflexivity|]. split; [reflexivity|].
    split; [intros [H | H]; vm_compute in H; discriminate|].
    intros _ _. split; [reflexivity | discriminate]. }
  destruct (eqb_str eventError (lit "aborted")) eqn:E4.
  { apply eqb_str_eq in E4. subst. simpl.
    split; [reflexivity|]. split; [reflexivity|].
    split; [intros _; split; reflexivity|].
    intros _ H. exfalso. apply H. reflexivity. }
  simpl.
  split; [reflexivity|]. split; [reflexivity|].
  split.
  - intros [-> | ->]; vm_compute in E1, E4; discriminate.
  - intros _ _. split; [reflexivity | discriminate].
Qed.

Lemma other_errors_witness :
  isHolding (onerror (lit "audio-capture") (startListening Started mounted))
  = false.
Proof.
  apply (@other_errors (startListening Started mounted)
           (lit "audio-capture"));
    discriminate.
Defined.

End VoiceMore.

(** ** The start of the session screen *)

Section StartupFacts.

Lemma isIOS_isMobile (b : Startup.Browser) :
  Startup.isIOS b = true -> Startup.isMobile b = true.
Proof.
  unfold Startup.isIOS, Startup.isMobile, Startup.testAnyIgnoringCase.
  cbn [map existsb]. intros H.
  apply orb_true_iff in H as [H | H]; [rewrite H|].
  { rewrite !orb_true_r. reflexivity. }
  apply orb_true_iff in H as [H | H]; [rewrite H|].
  { rewrite !orb_true_r. reflexivity. }
  apply orb_true_iff in H as [H | H]; [rewrite H | discriminate].
  rewrite !orb_true_r. reflexivity.
Qed.

(** The screen creates the recogniser exactly for a secure page outside
    Firefox and iOS whose window has one of the two recognition
    constructors; in every other case it marks speech as unsupported and
    sets a message, the one about iOS on every iOS device that gets as far
    as the check. *)
Theorem initialize_decides (b : Startup.Browser) :
  (Startup.created (Startup.initialize b) = true
   <-> Startup.secure b = true /\ Startup.isFirefox b = false
       /\ (Startup.hasSpeechRecognition b = true
           \/ Startup.hasWebkitSpeechRecognition b = true)
       /\ Startup.isIOS b = false)
  /\ Startup.supported (Startup.initialize b)
     = Startup.created (Startup.initialize b)
  /\ (Startup.created (Startup.initialize b) = false
      -> Startup.refusal (Startup.initialize b) <> None)
  /\ (Startup.secure b = true -> Startup.isFirefox b = false ->
      Startup.isIOS b = true ->
      Startup.refusal (Startup.initialize b) = Some Startup.NotOnIOS).
Proof.
  unfold Startup.initialize.
  destruct (Startup.secure b), (Startup.isFirefox b),
    (Startup.hasSpeechRecognition b),
    (Startup.hasWebkitSpeechRecognition b),
    (Startup.isIOS b) eqn:Hios;
    try (rewrite (isIOS_isMobile b Hios));
    try destruct (Startup.isMobile b);
    cbn [negb andb orb Startup.created Startup.supported Startup.refusal];
    repeat split; try discriminate; try tauto;
    intuition discriminate.
Qed.

End StartupFacts.

(** ** The scorer against the words of the specification *)

Section ScoreRefinement.

Import ScoreSpec.

Lemma startsWith_firstn (t : str) :
  forall s, startsWith s t = eqb_str (firstn (length t) s) t.
Proof.
  induction t as [|c t IH]; intros s.
  - destruct s; reflexivity.
  - destruct s as [|d s]; [reflexivity|].
    simpl. rewrite IH, (Ascii.eqb_sym c d). reflexivity.
Qed.

Lemma existsb_map (A B : Type) (f : B -> bool) (g : A -> B) (l : list A) :
  existsb f (map g l) = existsb (fun x => f (g x)) l.
Proof.
  induction l as [|x l IH]; simpl; [reflexivity|]. rewrite IH. reflexivity.
Qed.

(** The substring test of the code is the occurrence of the
    specification. *)
Lemma includes_occurs (s t : str) : includes s t = occurs s t.
Proof.
  unfold occurs. induction s as [|c s IH].
  - cbn [includes length seq existsb skipn].
    rewrite startsWith_firstn. reflexivity.
  - cbn [includes]. rewrite IH, startsWith_firstn.
    cbn [length]. rewrite <- (cons_seq (S (length s)) 0).
    cbn [existsb skipn]. f_equal.
    rewrite <- seq_shift, existsb_map. reflexivity.
Qed.

(** An occurrence is what it says: something before, then [t], then
    something after. *)
Lemma occurs_iff (s t : str) :
  occurs s t = true <-> exists a b, s = a ++ t ++ b.
Proof.
  split.
  - unfold occurs. intros H. apply existsb_exists in H as (i & _ & Hi).
    apply eqb_str_eq in Hi.
    exists (firstn i s), (skipn (length t) (skipn i s)).
    rewrite <- Hi at 1. rewrite firstn_skipn, firstn_skipn. reflexivity.
  - intros (a & b & ->). rewrite <- includes_occurs.
    apply includes_inside.
Qed.

Lemma wordMatch_spec (q c : str) :
  wordMatch q c = oneContainsTheOther q c.
Proof.
  unfold wordMatch, oneContainsTheOther.
  rewrite !includes_occurs. reflexivity.
Qed.

Lemma tokens_start (s : str) :
  startsToken s = true -> tokens s <> [].
Proof.
  destruct s as [|c r]; [discriminate|]. simpl. intros H.
  apply negb_true_iff in H. rewrite H.
  destruct (startsToken r); [destruct (tokens r)|]; discriminate.
Qed.

(** The tokens are not empty and hold no white space. *)
Lemma tokens_words (s : str) :
  Forall (fun w => w <> [] /\ Forall (fun c => isWhiteSpace c = false) w)
    (tokens s).
Proof.
  induction s as [|c r IH]; [constructor|]. simpl.
  destruct (isWhiteSpace c) eqn:E; [exact IH|].
  destruct (startsToken r).
  - destruct (tokens r) as [|w ws].
    + repeat constructor; [discriminate | exact E].
    + apply Forall_cons_iff in IH as [[_ Hw] Hws].
      constructor; [|exact Hws].
      split; [discriminate | constructor; assumption].
  - constructor; [|exact IH].
    split; [discriminate | repeat constructor; exact E].
Qed.

Local Abbreviation rest :=
  (fun s => tokens s ++ (if endsBlank s then [[]] else [])).

Lemma tokens_none (s : str) : tokens s = [] -> endsBlank s = true.
Proof.
  induction s as [|c r IH]; [reflexivity|]. cbn [tokens].
  destruct (isWhiteSpace c) eqn:E.
  - intros H. specialize (IH H). destruct r; [exact E | exact IH].
  - destruct (startsToken r); [destruct (tokens r)|]; discriminate.
Qed.

Lemma rest_nonempty (s : str) : rest s <> [].
Proof.
  cbv beta. destruct (tokens s) eqn:E; [|discriminate].
  rewrite (tokens_none s E). discriminate.
Qed.

Lemma rest_blank (c : ascii) (r : str) :
  isWhiteSpace c = true -> rest (c :: r) = rest r.
Proof.
  intros E. cbv beta. cbn [tokens]. rewrite E.
  destruct r; [simpl; rewrite E|]; reflexivity.
Qed.

Lemma rest_last (c : ascii) :
  isWhiteSpace c = false -> rest [c] = [[c]].
Proof. intros E. cbv beta. simpl. rewrite E. reflexivity. Qed.

Lemma rest_gap (c d : ascii) (r : str) :
  isWhiteSpace c = false -> isWhiteSpace d = true ->
  rest (c :: d :: r) = [c] :: rest (d :: r).
Proof.
  intros Ec Ed. cbv beta.
  change (tokens (c :: d :: r))
    with (if isWhiteSpace c then tokens (d :: r)
          else if negb (isWhiteSpace d) then
                 match tokens (d :: r) with
                 | w :: ws => (c :: w) :: ws
                 | [] => [[c]]
                 end
               else [c] :: tokens (d :: r)).
  rewrite Ec, Ed. reflexivity.
Qed.

Lemma rest_join (c d : ascii) (r : str) (w : str) (ws : list str) :
  isWhiteSpace c = false -> isWhiteSpace d = false ->
  rest (d :: r) = w :: ws ->
  rest (c :: d :: r) = (c :: w) :: ws.
Proof.
  intros Ec Ed. cbv beta.
  change (tokens (c :: d :: r))
    with (if isWhiteSpace c then tokens (d :: r)
          else if negb (isWhiteSpace d) then
                 match tokens (d :: r) with
                 | w :: ws => (c :: w) :: ws
                 | [] => [[c]]
                 end
               else [c] :: tokens (d :: r)).
  change (endsBlank (c :: d :: r)) with (endsBlank (d :: r)).
  rewrite Ec, Ed. cbn [negb].
  assert (Hne : tokens (d :: r) <> []).
  { apply tokens_start. simpl. rewrite Ed. reflexivity. }
  destruct (tokens (d :: r)) as [|w0 ws0]; [contradiction|].
  intros [= <- <-]. reflexivity.
Qed.

(** The scan of [split]: after a separator it yields the tokens and the
    empty piece of the end; inside a piece, what it has collected goes in
    front of the token that continues it. *)
Lemma split_from_tokens (s : str) :
  split_from isWhiteSpace true [] s = rest s
  /\ forall cur,
       split_from isWhiteSpace false cur s
       = match rest s with
         | w :: ws => if startsBlank s then cur :: w :: ws
                      else (cur ++ w) :: ws
         | [] => [cur]
         end.
Proof.
  induction s as [|c r [IHt IHf]].
  - split; [reflexivity|]. intros cur. simpl. rewrite app_nil_r.
    reflexivity.
  - assert (Hstep : forall cur,
              isWhiteSpace c = false ->
              split_from isWhiteSpace false (cur ++ [c]) r
              = match rest (c :: r) with
                | w :: ws => (cur ++ w) :: ws
                | [] => [cur]
                end).
    { intros cur Ec. rewrite IHf.
      destruct r as [|d r'].
      - rewrite (@rest_last c Ec). simpl. rewrite app_nil_r. reflexivity.
      - cbn [startsBlank]. destruct (isWhiteSpace d) eqn:Ed.
        + rewrite (@rest_gap c d r' Ec Ed).
          destruct (tokens (d :: r') ++ _) as [|w ws] eqn:E;
            [exfalso; exact (rest_nonempty (d :: r') E) | reflexivity].
        + destruct (tokens (d :: r') ++ _) as [|w ws] eqn:E;
            [exfalso; exact (rest_nonempty (d :: r') E)|].
          rewrite (@rest_join c d r' w ws Ec Ed E), <- app_assoc. reflexivity. }
    split.
    + cbn [split_from]. destruct (isWhiteSpace c) eqn:Ec.
      * rewrite IHt. symmetry. apply (@rest_blank c r Ec).
      * rewrite (Hstep [] eq_refl).
        destruct (tokens (c :: r) ++ _) as [|w ws] eqn:E;
          [exfalso; exact (rest_nonempty (c :: r) E) | reflexivity].
    + intros cur. cbn [split_from startsBlank].
      destruct (isWhiteSpace c) eqn:Ec.
      * rewrite IHt, (@rest_blank c r Ec).
        destruct (tokens r ++ _) as [|w ws] eqn:E;
          [exfalso; exact (rest_nonempty r E) | reflexivity].
      * apply (Hstep cur eq_refl).
Qed.

(** [split(/\s+/)] cuts a string into its tokens and the empty pieces of
    its white edges. *)
Lemma split_pieces (s : str) : split isWhiteSpace s = pieces s.
Proof.
  unfold split, pieces. rewrite (proj2 (split_from_tokens s) []).
  destruct (tokens s ++ _) as [|w ws] eqn:E;
    [exfalso; exact (rest_nonempty s E)|].
  destruct (startsBlank s) eqn:Es; [reflexivity|].
  destruct s as [|c r].
  - simpl in E. injection E as <- <-. reflexivity.
  - reflexivity.
Qed.

Lemma startsBlank_lower (s : str) :
  startsBlank (toLowerCase s) = startsBlank s.
Proof. destruct s; [reflexivity | apply toLowerChar_space]. Qed.

Lemma endsBlank_lower (s : str) :
  endsBlank (toLowerCase s) = endsBlank s.
Proof.
  induction s as [|c r IH]; [reflexivity|].
  destruct r as [|d r']; [apply toLowerChar_space | exact IH].
Qed.

Lemma pieces_tokens (s : str) :
  startsBlank s = false -> endsBlank s = false ->
  pieces (toLowerCase s) = tokens (toLowerCase s).
Proof.
  intros Hs He. unfold pieces.
  rewrite startsBlank_lower, endsBlank_lower, Hs, He.
  apply app_nil_r.
Qed.

(** C4, as the code has it: [scoreChunk] is the sum, over the pieces of the
    lowercased question that are longer than two characters, of the number
    of pieces of the lowercased chunk text of which one contains the other,
    plus 2 for each piece of the question that occurs in the lowercased
    section label, where the pieces of a string are its whitespace-separated
    tokens and, besides, an empty piece at each end where the string begins
    or ends with white space (an empty string is one empty piece).  Where
    neither the question nor the chunk text is empty or has white space at
    an end, the pieces are the tokens and the score is the sum over the
    tokens. *)
Theorem scoreChunk_by_pieces (question : str) (c : Chunk) :
  scoreChunk question c = scoreOver pieces question c
  /\ (startsBlank question = false -> endsBlank question = false ->
      startsBlank (text c) = false -> endsBlank (text c) = false ->
      scoreChunk question c = scoreOver tokens question c).
Proof.
  assert (Hpieces : scoreChunk question c = scoreOver pieces question c).
  { unfold scoreChunk, scoreOver.
    rewrite fold_bonus.
    rewrite (fold_count (fun q => 2 <? length q)
               (fun q =>
                  length
                    (filter (wordMatch q)
                       (split isWhiteSpace (toLowerCase (text c)))))).
    rewrite !split_pieces. cbn [Nat.add]. f_equal.
    - f_equal. apply map_ext. intros q. f_equal.
      apply filter_ext. intros w. apply wordMatch_spec.
    - f_equal. f_equal. apply filter_ext. intros q.
      apply includes_occurs. }
  split; [exact Hpieces|].
  intros Hq1 Hq2 Ht1 Ht2. rewrite Hpieces. unfold scoreOver.
  rewrite (pieces_tokens question Hq1 Hq2), (pieces_tokens (text c) Ht1 Ht2).
  reflexivity.
Qed.

Lemma scoreChunk_by_pieces_witness :
  scoreChunk (lit "How do I build a road") roads
  = scoreOver tokens (lit "How do I build a road") roads.
Proof.
  apply (proj2 (scoreChunk_by_pieces (lit "How do I build a road") roads));
    reflexivity.
Defined.

(** C4, as the specification has it, fails on a question that begins with
    white space: its tokens score nothing on the chunk, and the code scores
    2, for the empty piece in front, which the section label contains. *)
Lemma scoreChunk_counts_the_empty_piece :
  scoreChunk (lit " zzz") trading = 2
  /\ scoreOver tokens (lit " zzz") trading = 0
  /\ scoreChunk (lit " zzz") trading
     <> scoreOver tokens (lit " zzz") trading.
Proof.
  vm_compute. repeat split. discriminate.
Qed.

End ScoreRefinement.
